(** * Selection highlighting of the flow diagram ([lib/highlighting-logic.ts])

    A shallow embedding of the four exported functions
    [calculateHighlighting], [applyNodeHighlighting], [applyEdgeHighlighting]
    and [applyCompleteHighlighting], with the properties the specification
    states about them.

    - JavaScript [Set<string>] is a [gset string] (the code adds to its sets
      and tests membership; it never iterates over them); plain objects used
      as string-keyed dictionaries ([style]) are [gmap string JsVal].
    - [string | null] is [option string]; the JavaScript truthiness test that
      the code applies to it is [js_truthy].
    - The functions are first read at the level of values; Module [Store]
      re-reads the same code over an explicit object store, where arrays and
      objects are cells reached through references, to speak about mutation
      and aliasing.
    - Modules [Selection], [Cluster] and [Layout] hold the state updates and
      list transformations of the components that call these functions or
      that they replaced. *)

From Stdlib Require Import QArith.
From stdpp Require Import gmap strings list fin_maps.

Local Open Scope string_scope.

(** ** JavaScript values *)

(** JavaScript numbers are only copied by this code (no arithmetic, no
    comparison), so any carrier holding the literals will do. *)
Definition number : Type := Q.

Inductive JsVal : Type :=
| VNum (n : number)
| VStr (s : string)
| VBool (b : bool)
| VObj (fields : JsFields)
with JsFields : Type :=
| FNil
| FCons (key : string) (val : JsVal) (more : JsFields).

(** A style object ([React.CSSProperties]): a dictionary from property name
    to value. *)
Abbreviation Style := (gmap string JsVal).

(** The fields of [Node] the code reads or writes, and the remaining own
    properties ([position], [data], ...) kept as they are in [node_rest]. *)
Record Node : Type := mkNode {
  node_id : string;
  node_type : option string;
  node_style : option Style;
  node_rest : gmap string JsVal
}.

Record Edge : Type := mkEdge {
  edge_id : string;
  edge_source : string;
  edge_target : string;
  edge_style : option Style;
  edge_animated : option bool;
  edge_rest : gmap string JsVal
}.

Record HighlightingResult : Type := mkResult {
  highlightedNodes : gset string;
  highlightedEdges : gset string
}.

Record HighlightingConfig : Type := mkConfig {
  dimmedOpacity : number;
  highlightedOpacity : number;
  highlightedStrokeWidth : number;
  normalStrokeWidth : number;
  highlightedEdgeColor : string;
  normalEdgeColor : string
}.

Definition DEFAULT_HIGHLIGHTING_CONFIG : HighlightingConfig := {|
  dimmedOpacity := (3 # 10)%Q;
  highlightedOpacity := 1%Q;
  highlightedStrokeWidth := 3%Q;
  normalStrokeWidth := 2%Q;
  highlightedEdgeColor := "#3b82f6";
  normalEdgeColor := "#6b7280"
|}.

(** ** Truthiness *)

(** [if (s)] on a string: every string but the empty one is truthy. *)
Definition string_truthy (s : string) : bool :=
  match s with
  | EmptyString => false
  | String _ _ => true
  end.

(** [if (selectedNodeId)] on a [string | null]. *)
Definition js_truthy (v : option string) : bool :=
  match v with
  | None => false
  | Some s => string_truthy s
  end.

(** [{...o}] when [o] may be [undefined]: spreading [undefined] adds
    nothing. *)
Definition spread (o : option Style) : Style := default ∅ o.

(** [x.style?.[k]]: the entry [k] of a style that may be [undefined]. *)
Definition style_entry (st : option Style) (k : string) : option JsVal :=
  st ≫= lookup k.

(** ** The highlight calculator *)

(** An edge touches the selected node when it starts or ends there. *)
Definition incident (sel : string) (e : Edge) : Prop :=
  edge_source e = sel ∨ edge_target e = sel.

(** The body of the [edges.forEach] callback, as a transformer of the two
    sets it updates. [Set.prototype.add] is [{[x]} ∪ _]. *)
Definition visit_edge (selectedNodeId : string)
    (acc : HighlightingResult) (edge : Edge) : HighlightingResult :=
  let isConnectedToSelected :=
    bool_decide (edge_source edge = selectedNodeId)
    || bool_decide (edge_target edge = selectedNodeId) in
  if isConnectedToSelected then
    {| highlightedEdges := {[edge_id edge]} ∪ highlightedEdges acc;
       highlightedNodes :=
         {[edge_target edge]} ∪ ({[edge_source edge]} ∪ highlightedNodes acc) |}
  else acc.

Definition calculateHighlighting (selectedNodeId : option string)
    (edges : list Edge) : HighlightingResult :=
  match selectedNodeId with
  | Some sel =>
      if negb (string_truthy sel) then
        {| highlightedNodes := ∅; highlightedEdges := ∅ |}
      else
        foldl (visit_edge sel)
              {| highlightedNodes := {[sel]}; highlightedEdges := ∅ |}
              edges
  | None => {| highlightedNodes := ∅; highlightedEdges := ∅ |}
  end.

(** ** The node style projector *)

Definition node_opacity (highlightingResult : HighlightingResult)
    (selectedNodeId : option string) (config : HighlightingConfig)
    (node : Node) : number :=
  if js_truthy selectedNodeId then
    let isHighlighted :=
      bool_decide (node_id node ∈ highlightedNodes highlightingResult) in
    let isBackgroundNode := bool_decide (node_type node = Some "background") in
    if isHighlighted || isBackgroundNode
    then highlightedOpacity config
    else dimmedOpacity config
  else highlightedOpacity config.

(** The [nodes.map] callback. *)
Definition style_node (highlightingResult : HighlightingResult)
    (selectedNodeId : option string) (config : HighlightingConfig)
    (node : Node) : Node :=
  let opacity := node_opacity highlightingResult selectedNodeId config node in
  {| node_id := node_id node;
     node_type := node_type node;
     node_rest := node_rest node;
     node_style := Some (<["opacity" := VNum opacity]> (spread (node_style node))) |}.

Definition applyNodeHighlighting (nodes : list Node)
    (highlightingResult : HighlightingResult)
    (selectedNodeId : option string) (config : HighlightingConfig)
    : list Node :=
  style_node highlightingResult selectedNodeId config <$> nodes.

(** ** The edge style projector *)

Definition edge_isHighlighted (highlightingResult : HighlightingResult)
    (edge : Edge) : bool :=
  bool_decide (edge_id edge ∈ highlightedEdges highlightingResult).

Definition edge_strokeWidth (config : HighlightingConfig)
    (isHighlighted : bool) : number :=
  if isHighlighted then highlightedStrokeWidth config
  else normalStrokeWidth config.

Definition edge_strokeColor (config : HighlightingConfig)
    (isHighlighted : bool) : string :=
  if isHighlighted then highlightedEdgeColor config
  else normalEdgeColor config.

Definition edge_opacity (selectedNodeId : option string)
    (config : HighlightingConfig) (isHighlighted : bool) : number :=
  if js_truthy selectedNodeId then
    if isHighlighted then highlightedOpacity config
    else dimmedOpacity config
  else highlightedOpacity config.

(** The [edges.map] callback. In the object literal the three style keys are
    written after the spread, in the order [strokeWidth], [stroke],
    [opacity]. *)
Definition style_edge (highlightingResult : HighlightingResult)
    (selectedNodeId : option string) (config : HighlightingConfig)
    (edge : Edge) : Edge :=
  let isHighlighted := edge_isHighlighted highlightingResult edge in
  let strokeWidth := edge_strokeWidth config isHighlighted in
  let strokeColor := edge_strokeColor config isHighlighted in
  let opacity := edge_opacity selectedNodeId config isHighlighted in
  {| edge_id := edge_id edge;
     edge_source := edge_source edge;
     edge_target := edge_target edge;
     edge_rest := edge_rest edge;
     edge_style :=
       Some (<["opacity" := VNum opacity]>
              (<["stroke" := VStr strokeColor]>
                (<["strokeWidth" := VNum strokeWidth]>
                  (spread (edge_style edge)))));
     edge_animated := Some isHighlighted |}.

Definition applyEdgeHighlighting (edges : list Edge)
    (highlightingResult : HighlightingResult)
    (selectedNodeId : option string) (config : HighlightingConfig)
    : list Edge :=
  style_edge highlightingResult selectedNodeId config <$> edges.

(** ** The composition facade *)

Record CompleteHighlighting : Type := mkComplete {
  styledNodes : list Node;
  styledEdges : list Edge;
  highlightingResult : HighlightingResult
}.

Definition applyCompleteHighlighting (nodes : list Node) (edges : list Edge)
    (selectedNodeId : option string) (config : HighlightingConfig)
    : CompleteHighlighting :=
  let highlightingResult := calculateHighlighting selectedNodeId edges in
  let styledNodes :=
    applyNodeHighlighting nodes highlightingResult selectedNodeId config in
  let styledEdges :=
    applyEdgeHighlighting edges highlightingResult selectedNodeId config in
  {| styledNodes := styledNodes;
     styledEdges := styledEdges;
     highlightingResult := highlightingResult |}.

(** ** The data of the test suite *)

Definition plain_edge (id source target : string) : Edge :=
  {| edge_id := id; edge_source := source; edge_target := target;
     edge_style := None; edge_animated := None;
     edge_rest := {["type" := VStr "default"]} |}.

Definition mockEdges : list Edge :=
  [ plain_edge "e1" "node1" "node2";
    plain_edge "e2" "node2" "node3";
    plain_edge "e3" "node1" "node4";
    plain_edge "e4" "node5" "node6" ].

Definition plain_node (id type : string) (x y : Z) : Node :=
  {| node_id := id; node_type := Some type; node_style := None;
     node_rest :=
       {[ "position" :=
            VObj (FCons "x" (VNum (inject_Z x))
                 (FCons "y" (VNum (inject_Z y)) FNil));
          "data" := VObj FNil ]} |}.

Definition mockNodes : list Node :=
  [ plain_node "node1" "custom" 0 0;
    plain_node "node2" "custom" 100 0;
    plain_node "node3" "custom" 200 0;
    plain_node "node4" "custom" 0 100;
    plain_node "node5" "custom" 100 100;
    plain_node "node6" "custom" 200 100;
    plain_node "bg1" "background" 0 0 ].

(** A node and an edge that come with style entries of their own. *)
Definition sizedNode : Node :=
  {| node_id := "node7"; node_type := Some "custom";
     node_style :=
       Some {[ "width" := VNum 100%Q; "opacity" := VNum (1 # 2)%Q ]};
     node_rest := ∅ |}.

Definition dashedEdge : Edge :=
  {| edge_id := "e7"; edge_source := "node1"; edge_target := "node7";
     edge_style :=
       Some {[ "strokeDasharray" := VStr "5 5"; "stroke" := VStr "#000000" ]};
     edge_animated := Some false;
     edge_rest := ∅ |}.


(** A node placed in a section, as the application data has them. *)
Definition childNode : Node :=
  {| node_id := "node8"; node_type := Some "custom"; node_style := None;
     node_rest :=
       {[ "parentId" := VStr "bg1"; "extent" := VStr "parent";
          "data" := VObj FNil ]} |}.

(** * The same code over an object store

    Arrays, node and edge objects, style objects and [Set]s are cells of a
    store, reached through references. A node or edge object refers to its
    style object; an array refers to its elements. The functions below follow
    the source statement by statement: [new Set] and every object or array
    literal allocate a fresh cell, [Set.prototype.add] overwrites the cell of
    the set, and property reads look the cell up. Reading through a reference
    that holds no cell of the expected kind is the failure outcome; the
    TypeScript signatures exclude it. *)

Module Store.

Definition loc : Type := positive.

Inductive cell : Type :=
| CStyle (entries : gmap string JsVal)
| CNode (id : string) (type : option string) (style : option loc)
        (rest : gmap string JsVal)
| CEdge (id source target : string) (style : option loc)
        (animated : option bool) (rest : gmap string JsVal)
| CArray (items : list loc)
| CSet (members : gset string).

Abbreviation store := (gmap loc cell).

(** ** Reading structured values back from the store *)

Definition view_style (σ : store) (o : option loc) : option (option Style) :=
  match o with
  | None => Some None
  | Some l =>
      match σ !! l with
      | Some (CStyle entries) => Some (Some entries)
      | _ => None
      end
  end.

Definition view_node (σ : store) (l : loc) : option Node :=
  match σ !! l with
  | Some (CNode id type style rest) =>
      st ← view_style σ style;
      Some {| node_id := id; node_type := type; node_style := st;
              node_rest := rest |}
  | _ => None
  end.

Definition view_edge (σ : store) (l : loc) : option Edge :=
  match σ !! l with
  | Some (CEdge id source target style animated rest) =>
      st ← view_style σ style;
      Some {| edge_id := id; edge_source := source; edge_target := target;
              edge_style := st; edge_animated := animated;
              edge_rest := rest |}
  | _ => None
  end.

Definition view_array {A} (view : store → loc → option A) (σ : store)
    (l : loc) : option (list A) :=
  match σ !! l with
  | Some (CArray items) => mapM (view σ) items
  | _ => None
  end.

Definition view_nodes : store → loc → option (list Node) := view_array view_node.
Definition view_edges : store → loc → option (list Edge) := view_array view_edge.

Definition view_set (σ : store) (l : loc) : option (gset string) :=
  match σ !! l with
  | Some (CSet members) => Some members
  | _ => None
  end.

(** [HighlightingResult] and the object [applyCompleteHighlighting] returns,
    holding references. *)
Record HighlightingResultRef : Type := mkResultRef {
  highlightedNodesRef : loc;
  highlightedEdgesRef : loc
}.

Record CompleteHighlightingRef : Type := mkCompleteRef {
  styledNodesRef : loc;
  styledEdgesRef : loc;
  highlightingResultRef : HighlightingResultRef
}.

Definition view_result (σ : store) (r : HighlightingResultRef)
    : option HighlightingResult :=
  ns ← view_set σ (highlightedNodesRef r);
  es ← view_set σ (highlightedEdgesRef r);
  Some {| highlightedNodes := ns; highlightedEdges := es |}.

Definition view_complete (σ : store) (r : CompleteHighlightingRef)
    : option CompleteHighlighting :=
  ns ← view_nodes σ (styledNodesRef r);
  es ← view_edges σ (styledEdgesRef r);
  hr ← view_result σ (highlightingResultRef r);
  Some {| styledNodes := ns; styledEdges := es; highlightingResult := hr |}.

(** ** Computations on the store *)

Definition M (A : Type) : Type := store → option (A * store).

#[global] Instance M_ret : MRet M := λ A a σ, Some (a, σ).

#[global] Instance M_bind : MBind M := λ A B k m σ,
  match m σ with
  | Some (a, σ') => k a σ'
  | None => None
  end.

Definition throw {A} : M A := λ _, None.

Definition alloc (c : cell) : M loc := λ σ,
  let l := fresh (dom σ) in Some (l, <[l := c]> σ).

Definition read (l : loc) : M cell := λ σ,
  match σ !! l with
  | Some c => Some (c, σ)
  | None => None
  end.

Definition write (l : loc) (c : cell) : M unit := λ σ,
  Some ((), <[l := c]> σ).

Definition read_array (l : loc) : M (list loc) :=
  c ← read l;
  match c with
  | CArray items => mret items
  | _ => throw
  end.

(** [s.add(x)] *)
Definition set_add (s : loc) (x : string) : M unit :=
  c ← read s;
  match c with
  | CSet members => write s (CSet ({[x]} ∪ members))
  | _ => throw
  end.

(** [s.has(x)] *)
Definition set_has (s : loc) (x : string) : M bool :=
  c ← read s;
  match c with
  | CSet members => mret (bool_decide (x ∈ members))
  | _ => throw
  end.

(** The entries [{...x.style}] copies. *)
Definition spread_style (o : option loc) : M Style :=
  match o with
  | None => mret ∅
  | Some l =>
      c ← read l;
      match c with
      | CStyle entries => mret entries
      | _ => throw
      end
  end.

(** [items.forEach(f)] *)
Fixpoint forEach {A} (f : A → M unit) (items : list A) : M unit :=
  match items with
  | [] => mret ()
  | x :: items => f x;; forEach f items
  end.

(** [items.map(f)], before the resulting array is allocated. *)
Fixpoint map_items {A B} (f : A → M B) (items : list A) : M (list B) :=
  match items with
  | [] => mret []
  | x :: items => y ← f x; ys ← map_items f items; mret (y :: ys)
  end.

Definition visit_edge (selectedNodeId : string)
    (highlightedNodes highlightedEdges : loc) (edge : loc) : M unit :=
  c ← read edge;
  match c with
  | CEdge id source target _ _ _ =>
      let isConnectedToSelected :=
        bool_decide (source = selectedNodeId)
        || bool_decide (target = selectedNodeId) in
      if isConnectedToSelected then
        set_add highlightedEdges id;;
        set_add highlightedNodes source;;
        set_add highlightedNodes target
      else mret ()
  | _ => throw
  end.

Definition calculateHighlighting (selectedNodeId : option string)
    (edges : loc) : M HighlightingResultRef :=
  match selectedNodeId with
  | Some sel =>
      if negb (string_truthy sel) then
        highlightedNodes ← alloc (CSet ∅);
        highlightedEdges ← alloc (CSet ∅);
        mret {| highlightedNodesRef := highlightedNodes;
                highlightedEdgesRef := highlightedEdges |}
      else
        highlightedNodes ← alloc (CSet {[sel]});
        highlightedEdges ← alloc (CSet ∅);
        items ← read_array edges;
        forEach (visit_edge sel highlightedNodes highlightedEdges) items;;
        mret {| highlightedNodesRef := highlightedNodes;
                highlightedEdgesRef := highlightedEdges |}
  | None =>
      highlightedNodes ← alloc (CSet ∅);
      highlightedEdges ← alloc (CSet ∅);
      mret {| highlightedNodesRef := highlightedNodes;
              highlightedEdgesRef := highlightedEdges |}
  end.

Definition style_node (highlightingResult : HighlightingResultRef)
    (selectedNodeId : option string) (config : HighlightingConfig)
    (node : loc) : M loc :=
  c ← read node;
  match c with
  | CNode id type style rest =>
      opacity ←
        (if js_truthy selectedNodeId then
           isHighlighted ← set_has (highlightedNodesRef highlightingResult) id;
           let isBackgroundNode := bool_decide (type = Some "background") in
           mret (if isHighlighted || isBackgroundNode
                 then highlightedOpacity config
                 else dimmedOpacity config)
         else mret (highlightedOpacity config));
      entries ← spread_style style;
      style' ← alloc (CStyle (<["opacity" := VNum opacity]> entries));
      alloc (CNode id type (Some style') rest)
  | _ => throw
  end.

Definition applyNodeHighlighting (nodes : loc)
    (highlightingResult : HighlightingResultRef)
    (selectedNodeId : option string) (config : HighlightingConfig) : M loc :=
  items ← read_array nodes;
  out ← map_items (style_node highlightingResult selectedNodeId config) items;
  alloc (CArray out).

Definition style_edge (highlightingResult : HighlightingResultRef)
    (selectedNodeId : option string) (config : HighlightingConfig)
    (edge : loc) : M loc :=
  c ← read edge;
  match c with
  | CEdge id source target style _ rest =>
      isHighlighted ← set_has (highlightedEdgesRef highlightingResult) id;
      let strokeWidth := edge_strokeWidth config isHighlighted in
      let strokeColor := edge_strokeColor config isHighlighted in
      let opacity := edge_opacity selectedNodeId config isHighlighted in
      entries ← spread_style style;
      style' ← alloc (CStyle (<["opacity" := VNum opacity]>
                               (<["stroke" := VStr strokeColor]>
                                 (<["strokeWidth" := VNum strokeWidth]>
                                   entries))));
      alloc (CEdge id source target (Some style') (Some isHighlighted) rest)
  | _ => throw
  end.

Definition applyEdgeHighlighting (edges : loc)
    (highlightingResult : HighlightingResultRef)
    (selectedNodeId : option string) (config : HighlightingConfig) : M loc :=
  items ← read_array edges;
  out ← map_items (style_edge highlightingResult selectedNodeId config) items;
  alloc (CArray out).

Definition applyCompleteHighlighting (nodes edges : loc)
    (selectedNodeId : option string) (config : HighlightingConfig)
    : M CompleteHighlightingRef :=
  highlightingResult ← calculateHighlighting selectedNodeId edges;
  styledNodes ←
    applyNodeHighlighting nodes highlightingResult selectedNodeId config;
  styledEdges ←
    applyEdgeHighlighting edges highlightingResult selectedNodeId config;
  mret {| styledNodesRef := styledNodes;
          styledEdgesRef := styledEdges;
          highlightingResultRef := highlightingResult |}.

(** ** Placing values in the store *)

Definition put_style (o : option Style) : M (option loc) :=
  match o with
  | None => mret None
  | Some entries => l ← alloc (CStyle entries); mret (Some l)
  end.

Definition put_node (n : Node) : M loc :=
  style ← put_style (node_style n);
  alloc (CNode (node_id n) (node_type n) style (node_rest n)).

Definition put_edge (e : Edge) : M loc :=
  style ← put_style (edge_style e);
  alloc (CEdge (edge_id e) (edge_source e) (edge_target e) style
               (edge_animated e) (edge_rest e)).

Definition put_nodes (ns : list Node) : M loc :=
  items ← map_items put_node ns; alloc (CArray items).

Definition put_edges (es : list Edge) : M loc :=
  items ← map_items put_edge es; alloc (CArray items).

(** A store holding the data of the test suite twice, in separate cells:
    two inputs that are deep-equal and share nothing. *)
Definition mockStore : option ((loc * loc) * (loc * loc) * store) :=
  (ns ← put_nodes mockNodes;
   es ← put_edges mockEdges;
   ns' ← put_nodes mockNodes;
   es' ← put_edges mockEdges;
   mret ((ns, es), (ns', es'))) ∅.

Definition mockCells : store := from_option snd ∅ mockStore.
Definition mockNodesRef : loc := from_option (λ x, fst (fst (fst x))) 1%positive mockStore.
Definition mockEdgesRef : loc := from_option (λ x, snd (fst (fst x))) 1%positive mockStore.
Definition mockNodesRef' : loc := from_option (λ x, fst (snd (fst x))) 1%positive mockStore.
Definition mockEdgesRef' : loc := from_option (λ x, snd (snd (fst x))) 1%positive mockStore.

(** The outcome of a computation: it returns, and the value and the store
    it returns satisfy [Q]. *)
Definition runs {A} (m : M A) (σ : store) (Q : A → store → Prop) : Prop :=
  ∃ a σ', m σ = Some (a, σ') ∧ Q a σ'.




End Store.

(** * The components around the highlighting functions *)

(** Truthiness of a property read: a missing property reads [undefined]. *)
Definition val_truthy (v : option JsVal) : bool :=
  match v with
  | None => false
  | Some (VStr s) => string_truthy s
  | Some (VNum n) => negb (Qeq_bool n 0)
  | Some (VBool b) => b
  | Some (VObj _) => true
  end.

(** ** [components/flow-diagram.tsx]: selection by click, rendered through
    [applyCompleteHighlighting] *)

Module Selection.


(** The callback of [nodes.map] in [transformNodes]: a truthy [parentId]
    is taken out of the node and put back under the key [parentNode]. *)
Definition transformNode (node : Node) : Node :=
  match node_rest node !! "parentId" with
  | Some parentId =>
      if val_truthy (Some parentId) then
        {| node_id := node_id node;
           node_type := node_type node;
           node_style := node_style node;
           node_rest :=
             <["parentNode" := parentId]> (delete "parentId" (node_rest node)) |}
      else node
  | None => node
  end.

Definition transformNodes (nodes : list Node) : list Node :=
  transformNode <$> nodes.

(** The state update of [onNodeClick]: from the current selected identifier
    to the next one. *)
Definition onNodeClick (node : Node) (currentId : option string)
    : option string :=
  if bool_decide (node_type node = Some "background") then None
  else if bool_decide (currentId = Some (node_id node)) then None
       else Some (node_id node).

Definition onPaneClick (currentId : option string) : option string := None.

(** The two events the component reacts to with a change of selection. *)
Inductive event : Type :=
| NodeClick (node : Node)
| PaneClick.

Definition handle (currentId : option string) (ev : event) : option string :=
  match ev with
  | NodeClick node => onNodeClick node currentId
  | PaneClick => onPaneClick currentId
  end.

(** The selection after a sequence of events, from the initial state
    [useState(null)]. *)
Definition selection_after (evs : list event) : option string :=
  foldl handle None evs.


End Selection.

(** ** [changes/flow-diagram.tsx]: the cluster of a clicked node *)

Module Cluster.

(** The body of the [for ... of] loop of [getCluster]. *)
Definition visit (rootId : string) (cluster : gset string) (edge : Edge)
    : gset string :=
  if bool_decide (edge_source edge = rootId) then
    {[edge_target edge]} ∪ cluster
  else if bool_decide (edge_target edge = rootId) then
    {[edge_source edge]} ∪ cluster
  else cluster.

Definition getCluster (rootId : string) (edges : list Edge) : gset string :=
  foldl (visit rootId) {[rootId]} edges.

(** The state update of [onNodeClick]: only a click on a node of type
    ["custom"] changes the active identifiers. *)
Definition onNodeClick (edges : list Edge) (node : Node)
    (activeIds : gset string) : gset string :=
  if bool_decide (node_type node = Some "custom")
  then getCluster (node_id node) edges
  else activeIds.

Definition onPaneClick (activeIds : gset string) : gset string := ∅.

(** [className: cond ? 'node--active' : undefined]. A property that holds
    [undefined] reads like a missing one, and is kept as a missing one. *)
Definition with_active_class (activeIds : gset string) (node : Node) : Node :=
  {| node_id := node_id node;
     node_type := node_type node;
     node_style := node_style node;
     node_rest :=
       if bool_decide (node_id node ∈ activeIds)
       then <["className" := VStr "node--active"]> (node_rest node)
       else delete "className" (node_rest node) |}.

Definition nodesWithActiveClass (nodes : list Node) (activeIds : gset string)
    : list Node :=
  with_active_class activeIds <$> nodes.

Definition with_animation (activeIds : gset string) (edge : Edge) : Edge :=
  let isActive :=
    bool_decide (edge_source edge ∈ activeIds)
    && bool_decide (edge_target edge ∈ activeIds) in
  {| edge_id := edge_id edge;
     edge_source := edge_source edge;
     edge_target := edge_target edge;
     edge_rest := edge_rest edge;
     edge_animated := Some isActive;
     edge_style :=
       if isActive
       then Some (<["strokeWidth" := VNum 3%Q]> (spread (edge_style edge)))
       else edge_style edge |}.

Definition edgesWithAnimation (edges : list Edge) (activeIds : gset string)
    : list Edge :=
  with_animation activeIds <$> edges.

End Cluster.

(** ** The layout effect of [changes/flow-diagram.tsx]

    The effect computes with floating-point numbers and formats them; the
    operations it uses are parameters here, and nothing below depends on
    what they compute. *)

Module Layout.

Section layout.

(** [a * b], [a + b], [a - b], [a > 0] and [`${a}px`] on JavaScript
    numbers. *)
Variable fmul fadd fsub : number → number → number.
Variable is_positive : number → bool.
Variable px : number → string.

Definition SECTION_IDS : list string :=
  ["bg-origination"; "bg-validation"; "bg-middleware"; "bg-processing"].

Definition SECTION_WIDTH_PROPORTIONS : list number :=
  [(2 # 10)%Q; (2 # 10)%Q; (25 # 100)%Q; (35 # 100)%Q].

Definition GAP_WIDTH : number := 16%Q.

(** [{ x: x, y: y }] *)
Definition position (x y : number) : JsVal :=
  VObj (FCons "x" (VNum x) (FCons "y" (VNum y) FNil)).

(** The object literal that replaces a section node. *)
Definition place (node : Node) (currentX sectionWidth height : number) : Node :=
  {| node_id := node_id node;
     node_type := node_type node;
     node_rest := <["position" := position currentX 0%Q]> (node_rest node);
     node_style :=
       Some (<["height" := VStr (px height)]>
              (<["width" := VStr (px sectionWidth)]>
                (spread (node_style node)))) |}.

(** One turn of the loop over the sections, on [newNodes] and [currentX]. *)
Definition place_section (availableWidth height : number)
    (acc : list Node * number) (section : string * number)
    : list Node * number :=
  let '(newNodes, currentX) := acc in
  let '(sectionId, proportion) := section in
  match list_find (λ n, node_id n = sectionId) newNodes with
  | Some (nodeIndex, node) =>
      let sectionWidth := fmul availableWidth proportion in
      (<[nodeIndex := place node currentX sectionWidth height]> newNodes,
       fadd currentX (fadd sectionWidth GAP_WIDTH))
  | None => acc
  end.

(** The function given to [setNodes], over any list of sections. *)
Definition place_sections (sections : list (string * number))
    (width height : number) (nds : list Node) : list Node :=
  let totalGapWidth :=
    fmul GAP_WIDTH (inject_Z (Z.of_nat (length sections) - 1)) in
  let availableWidth := fsub width totalGapWidth in
  fst (foldl (place_section availableWidth height) (nds, 0%Q) sections).

(** The nodes after the effect has run. *)
Definition layoutNodes (width height : number) (nds : list Node) : list Node :=
  if is_positive width && is_positive height
  then place_sections (zip SECTION_IDS SECTION_WIDTH_PROPORTIONS) width height nds
  else nds.

End layout.

End Layout.

(** * Properties of the value-level functions *)

(** ** The scenarios of the test suite, by evaluation *)

Example scenario_connected :
  calculateHighlighting (Some "node1") mockEdges
  = {| highlightedNodes := {["node1"; "node2"; "node4"]};
       highlightedEdges := {["e1"; "e3"]} |}.
Proof. vm_compute. reflexivity. Qed.

Example scenario_no_selection :
  calculateHighlighting None mockEdges
  = {| highlightedNodes := ∅; highlightedEdges := ∅ |}.
Proof. reflexivity. Qed.

Example scenario_isolated :
  calculateHighlighting (Some "node3") [plain_edge "e1" "node1" "node2"]
  = {| highlightedNodes := {["node3"]}; highlightedEdges := ∅ |}.
Proof. vm_compute. reflexivity. Qed.

Example scenario_dimmed_nodes :
  let hl := {| highlightedNodes := {["node1"; "node2"]}; highlightedEdges := ∅ |} in
  (λ n, (node_id n, style_entry (node_style n) "opacity"))
    <$> applyNodeHighlighting mockNodes hl (Some "node1") DEFAULT_HIGHLIGHTING_CONFIG
  = [ ("node1", Some (VNum 1%Q)); ("node2", Some (VNum 1%Q));
      ("node3", Some (VNum (3 # 10)%Q)); ("node4", Some (VNum (3 # 10)%Q));
      ("node5", Some (VNum (3 # 10)%Q)); ("node6", Some (VNum (3 # 10)%Q));
      ("bg1", Some (VNum 1%Q)) ].
Proof. vm_compute. reflexivity. Qed.

Example scenario_styled_edges :
  let hl := {| highlightedNodes := ∅; highlightedEdges := {["e1"; "e2"]} |} in
  (λ e, (edge_id e, style_entry (edge_style e) "strokeWidth",
         style_entry (edge_style e) "stroke", edge_animated e))
    <$> applyEdgeHighlighting mockEdges hl (Some "node1") DEFAULT_HIGHLIGHTING_CONFIG
  = [ ("e1", Some (VNum 3%Q), Some (VStr "#3b82f6"), Some true);
      ("e2", Some (VNum 3%Q), Some (VStr "#3b82f6"), Some true);
      ("e3", Some (VNum 2%Q), Some (VStr "#6b7280"), Some false);
      ("e4", Some (VNum 2%Q), Some (VStr "#6b7280"), Some false) ].
Proof. vm_compute. reflexivity. Qed.

(** ** The loop of [calculateHighlighting] *)

Lemma visit_edge_incident sel acc e :
  incident sel e →
  visit_edge sel acc e
  = {| highlightedEdges := {[edge_id e]} ∪ highlightedEdges acc;
       highlightedNodes :=
         {[edge_target e]} ∪ ({[edge_source e]} ∪ highlightedNodes acc) |}.
Proof.
  intros [H | H]; unfold visit_edge.
  - by rewrite (bool_decide_eq_true_2 _ H).
  - rewrite (bool_decide_eq_true_2 _ H). by rewrite orb_true_r.
Qed.

Lemma visit_edge_not_incident sel acc e :
  ¬ incident sel e → visit_edge sel acc e = acc.
Proof.
  intros H. unfold visit_edge.
  rewrite !bool_decide_eq_false_2; [done | |]; intros ?; apply H; [by right | by left].
Qed.

(** What the loop has added to the edge set after a run over [edges]. *)
Lemma foldl_visit_highlightedEdges sel edges acc x :
  x ∈ highlightedEdges (foldl (visit_edge sel) acc edges)
  ↔ x ∈ highlightedEdges acc
    ∨ ∃ e, e ∈ edges ∧ incident sel e ∧ x = edge_id e.
Proof.
  revert acc. induction edges as [| e edges IH]; intros acc; simpl.
  - split; [by left |]. intros [H | (e & He & _)]; [done |].
    by apply not_elem_of_nil in He.
  - rewrite IH. destruct (decide (incident sel e)) as [Hi | Hi].
    + rewrite (visit_edge_incident _ _ _ Hi); simpl.
      rewrite elem_of_union, elem_of_singleton. split.
      * intros [[-> | H] | (e' & He' & Hi' & ->)].
        -- right. exists e. split; [left | done].
        -- by left.
        -- right. exists e'. split; [by right | done].
      * intros [H | (e' & He' & Hi' & ->)]; [left; by right |].
        apply elem_of_cons in He' as [-> | He']; [left; by left |].
        right. by exists e'.
    + rewrite (visit_edge_not_incident _ _ _ Hi). split.
      * intros [H | (e' & He' & Hi' & ->)]; [by left |].
        right. exists e'. split; [by right | done].
      * intros [H | (e' & He' & Hi' & ->)]; [by left |].
        apply elem_of_cons in He' as [-> | He']; [done |].
        right. by exists e'.
Qed.

(** What the loop has added to the node set after a run over [edges]. *)
Lemma foldl_visit_highlightedNodes sel edges acc n :
  n ∈ highlightedNodes (foldl (visit_edge sel) acc edges)
  ↔ n ∈ highlightedNodes acc
    ∨ ∃ e, e ∈ edges ∧ incident sel e
           ∧ (n = edge_source e ∨ n = edge_target e).
Proof.
  revert acc. induction edges as [| e edges IH]; intros acc; simpl.
  - split; [by left |]. intros [H | (e & He & _)]; [done |].
    by apply not_elem_of_nil in He.
  - rewrite IH. destruct (decide (incident sel e)) as [Hi | Hi].
    + rewrite (visit_edge_incident _ _ _ Hi); simpl.
      rewrite !elem_of_union, !elem_of_singleton. split.
      * intros [[-> | [-> | H]] | (e' & He' & Hi' & Hn)].
        -- right. exists e. split; [left | split; [done | by right]].
        -- right. exists e. split; [left | split; [done | by left]].
        -- by left.
        -- right. exists e'. split; [by right | done].
      * intros [H | (e' & He' & Hi' & Hn)]; [left; right; by right |].
        apply elem_of_cons in He' as [-> | He'].
        -- left. destruct Hn as [-> | ->]; [right; by left | by left].
        -- right. by exists e'.
    + rewrite (visit_edge_not_incident _ _ _ Hi). split.
      * intros [H | (e' & He' & Hi' & Hn)]; [by left |].
        right. exists e'. split; [by right | done].
      * intros [H | (e' & He' & Hi' & Hn)]; [by left |].
        apply elem_of_cons in He' as [-> | He']; [done |].
        right. by exists e'.
Qed.

Lemma string_truthy_nonempty s : s ≠ "" ↔ string_truthy s = true.
Proof. destruct s; simpl; split; intros; done. Qed.

Lemma calculateHighlighting_nonempty sel edges :
  sel ≠ "" →
  calculateHighlighting (Some sel) edges
  = foldl (visit_edge sel)
          {| highlightedNodes := {[sel]}; highlightedEdges := ∅ |} edges.
Proof.
  intros H%string_truthy_nonempty. unfold calculateHighlighting. by rewrite H.
Qed.

Lemma calculateHighlighting_falsy sel edges :
  js_truthy sel = false →
  calculateHighlighting sel edges
  = {| highlightedNodes := ∅; highlightedEdges := ∅ |}.
Proof.
  destruct sel as [s |]; simpl; [| done]. intros H.
  unfold calculateHighlighting. by rewrite H.
Qed.

Lemma elem_of_calculated_edges sel edges x :
  sel ≠ "" →
  x ∈ highlightedEdges (calculateHighlighting (Some sel) edges)
  ↔ ∃ e, e ∈ edges ∧ incident sel e ∧ x = edge_id e.
Proof.
  intros H. rewrite (calculateHighlighting_nonempty _ _ H).
  rewrite foldl_visit_highlightedEdges; simpl.
  split; [intros [H' | H']; [by apply not_elem_of_empty in H' | done] | by right].
Qed.

Lemma elem_of_calculated_nodes sel edges n :
  sel ≠ "" →
  n ∈ highlightedNodes (calculateHighlighting (Some sel) edges)
  ↔ n = sel ∨ ∃ e, e ∈ edges ∧ incident sel e
                   ∧ (n = edge_source e ∨ n = edge_target e).
Proof.
  intros H. rewrite (calculateHighlighting_nonempty _ _ H).
  rewrite foldl_visit_highlightedNodes; simpl. by rewrite elem_of_singleton.
Qed.

(** With unique identifiers, an identifier names one edge of the list. *)
Lemma unique_edge_id (edges : list Edge) e e' :
  NoDup (edge_id <$> edges) →
  e ∈ edges → e' ∈ edges → edge_id e = edge_id e' → e = e'.
Proof.
  induction edges as [| a edges IH]; simpl; intros Hnd He He' Hid.
  - by apply not_elem_of_nil in He.
  - apply NoDup_cons in Hnd as [Hna Hnd].
    apply elem_of_cons in He as [-> | He];
      apply elem_of_cons in He' as [-> | He']; [done | | | by apply IH].
    + exfalso. apply Hna. rewrite Hid. by apply list_elem_of_fmap_2.
    + exfalso. apply Hna. rewrite <- Hid. by apply list_elem_of_fmap_2.
Qed.

(** ** Which edges are highlighted *)

(** C1, as amended: for every selected identifier that is present and not
    the empty string, and every edge [e] of an edge list whose identifiers
    are unique, [e.id] is in [highlightedEdges] exactly when [e.source] or
    [e.target] is the selected identifier. *)
Theorem highlightedEdges_iff_incident (sel : string) (edges : list Edge) (e : Edge) :
  sel ≠ "" →
  NoDup (edge_id <$> edges) →
  e ∈ edges →
  edge_id e ∈ highlightedEdges (calculateHighlighting (Some sel) edges)
  ↔ edge_source e = sel ∨ edge_target e = sel.
Proof.
  intros Hsel Hnd He. rewrite (elem_of_calculated_edges _ _ _ Hsel). split.
  - intros (e' & He' & Hi & Hid).
    by rewrite (unique_edge_id edges e e' Hnd He He' Hid).
  - intros Hi. by exists e.
Qed.

Lemma highlightedEdges_iff_incident_witness :
  "node1" ≠ ""
  ∧ NoDup (edge_id <$> mockEdges)
  ∧ plain_edge "e3" "node1" "node4" ∈ mockEdges
  ∧ ("e3" ∈ highlightedEdges (calculateHighlighting (Some "node1") mockEdges)
     ↔ "node1" = "node1" ∨ "node4" = "node1").
Proof.
  assert (H1 : "node1" ≠ "") by discriminate.
  assert (H2 : NoDup (edge_id <$> mockEdges))
    by (apply (bool_decide_unpack (NoDup (edge_id <$> mockEdges)));
        vm_compute; exact I).
  assert (H3 : plain_edge "e3" "node1" "node4" ∈ mockEdges)
    by (unfold mockEdges; do 2 apply list_elem_of_further;
        apply list_elem_of_here).
  split; [exact H1 |]. split; [exact H2 |]. split; [exact H3 |].
  exact (highlightedEdges_iff_incident "node1" mockEdges
           (plain_edge "e3" "node1" "node4") H1 H2 H3).
Defined.

(** C1 as stated fails at the empty string: it is a present identifier, an
    edge may start there, and yet nothing is highlighted. *)
Lemma highlightedEdges_empty_selection_counterexample :
  let e := plain_edge "e1" "" "node2" in
  NoDup (edge_id <$> [e]) ∧ e ∈ [e]
  ∧ ¬ (edge_id e ∈ highlightedEdges (calculateHighlighting (Some "") [e])
       ↔ edge_source e = "" ∨ edge_target e = "").
Proof.
  simpl. split; [| split].
  - apply NoDup_singleton.
  - apply list_elem_of_here.
  - intros [_ H]. specialize (H (or_introl eq_refl)).
    by apply not_elem_of_empty in H.
Qed.

(** ** Which nodes are highlighted *)

(** C2, as amended: for every selected identifier that is present and not
    the empty string, [n] is in [highlightedNodes] exactly when [n] is the
    selected identifier or an endpoint of an edge touching it; so the
    selected identifier is always a member, and a node none of whose edges
    touches the selected node is never one. *)
Theorem highlightedNodes_iff_one_hop (sel : string) (edges : list Edge) :
  sel ≠ "" →
  let result := calculateHighlighting (Some sel) edges in
  (∀ n, n ∈ highlightedNodes result
        ↔ n = sel
          ∨ ∃ e, e ∈ edges
                 ∧ (edge_source e = sel ∨ edge_target e = sel)
                 ∧ (n = edge_source e ∨ n = edge_target e))
  ∧ sel ∈ highlightedNodes result
  ∧ (∀ n, n ≠ sel →
          (∀ e, e ∈ edges → edge_source e = n ∨ edge_target e = n →
                edge_source e ≠ sel ∧ edge_target e ≠ sel) →
          n ∉ highlightedNodes result).
Proof.
  intros Hsel result. unfold result. split; [| split].
  - intros n. apply (elem_of_calculated_nodes _ _ _ Hsel).
  - apply (elem_of_calculated_nodes _ _ _ Hsel). by left.
  - intros n Hn Hfar [-> | (e & He & Hi & Hends)]%(elem_of_calculated_nodes _ _ _ Hsel);
      [done |].
    destruct (Hfar e He) as [Hs Ht]; [destruct Hends as [-> | ->]; [by left | by right] |].
    by destruct Hi.
Qed.

Lemma highlightedNodes_iff_one_hop_witness :
  "node1" ≠ ""
  ∧ "node1" ∈ highlightedNodes (calculateHighlighting (Some "node1") mockEdges)
  ∧ "node3" ∉ highlightedNodes (calculateHighlighting (Some "node1") mockEdges).
Proof.
  assert (H1 : "node1" ≠ "") by discriminate.
  destruct (highlightedNodes_iff_one_hop "node1" mockEdges H1) as (_ & Hin & Hfar).
  split; [exact H1 |]. split; [exact Hin |].
  apply Hfar; [discriminate |].
  intros e He Hends. unfold mockEdges in He.
  repeat (apply elem_of_cons in He as [-> | He]);
    [| | | | by apply not_elem_of_nil in He];
    simpl in *; (split; discriminate) || (destruct Hends; discriminate).
Defined.

(** C2 as stated fails at the empty string: it is not a member of the
    (empty) node set. *)
Lemma highlightedNodes_empty_selection_counterexample :
  "" ∉ highlightedNodes (calculateHighlighting (Some "") mockEdges).
Proof. simpl. apply not_elem_of_empty. Qed.

(** ** The node style projector *)

Lemma style_node_opacity hl sel cfg node :
  style_entry (node_style (style_node hl sel cfg node)) "opacity"
  = Some (VNum (node_opacity hl sel cfg node)).
Proof. simpl. apply lookup_insert_eq. Qed.

Lemma applyNodeHighlighting_lookup nodes hl sel cfg (i : nat) :
  applyNodeHighlighting nodes hl sel cfg !! i
  = style_node hl sel cfg <$> nodes !! i.
Proof. apply list_lookup_fmap. Qed.

Lemma applyEdgeHighlighting_lookup edges hl sel cfg (i : nat) :
  applyEdgeHighlighting edges hl sel cfg !! i
  = style_edge hl sel cfg <$> edges !! i.
Proof. apply list_lookup_fmap. Qed.

(** C3, as amended: the node at any position of the output carries the
    opacity [config.highlightedOpacity] when no identifier is selected; when
    the selected identifier is present and not the empty string, it carries
    [config.highlightedOpacity] if its identifier is in
    [highlight.highlightedNodes] or its type is ["background"], and
    [config.dimmedOpacity] otherwise. *)
Theorem node_opacity_rule (nodes : list Node) (hl : HighlightingResult)
    (sel : option string) (cfg : HighlightingConfig) (i : nat) (node : Node) :
  nodes !! i = Some node →
  ∃ node',
    applyNodeHighlighting nodes hl sel cfg !! i = Some node'
    ∧ node_id node' = node_id node
    ∧ node_type node' = node_type node
    ∧ (sel = None →
       style_entry (node_style node') "opacity"
       = Some (VNum (highlightedOpacity cfg)))
    ∧ (∀ s, sel = Some s → s ≠ "" →
       style_entry (node_style node') "opacity"
       = Some (VNum (if decide (node_id node' ∈ highlightedNodes hl
                                ∨ node_type node' = Some "background")
                     then highlightedOpacity cfg
                     else dimmedOpacity cfg))).
Proof.
  intros Hi. exists (style_node hl sel cfg node).
  rewrite applyNodeHighlighting_lookup, Hi.
  split; [done |]. split; [done |]. split; [done |].
  rewrite style_node_opacity. split.
  - intros ->. done.
  - intros s -> Hs%string_truthy_nonempty. unfold node_opacity; simpl.
    rewrite Hs. do 2 f_equal.
    destruct (decide _) as [[Hin | Hbg] | Hno].
    + by rewrite (bool_decide_eq_true_2 _ Hin).
    + rewrite (bool_decide_eq_true_2 _ Hbg). by rewrite orb_true_r.
    + rewrite !bool_decide_eq_false_2; [done | |]; intros ?; apply Hno; [by right | by left].
Qed.

Lemma node_opacity_rule_witness :
  let hl := calculateHighlighting (Some "node1") mockEdges in
  (∃ node',
     applyNodeHighlighting mockNodes hl (Some "node1")
       DEFAULT_HIGHLIGHTING_CONFIG !! 2%nat = Some node'
     ∧ node_id node' = "node3"
     ∧ style_entry (node_style node') "opacity" = Some (VNum (3 # 10)%Q))
  ∧ (∃ node',
       applyNodeHighlighting mockNodes hl None
         DEFAULT_HIGHLIGHTING_CONFIG !! 2%nat = Some node'
       ∧ style_entry (node_style node') "opacity" = Some (VNum 1%Q)).
Proof.
  intros hl. split.
  - destruct (node_opacity_rule mockNodes hl (Some "node1")
                DEFAULT_HIGHLIGHTING_CONFIG 2 (plain_node "node3" "custom" 200 0)
                eq_refl)
      as (node' & Hout & Hid & Hty & _ & Hsel).
    exists node'. split; [exact Hout |]. split; [exact Hid |].
    rewrite (Hsel "node1" eq_refl); [| discriminate].
    rewrite Hid, Hty. vm_compute. reflexivity.
  - destruct (node_opacity_rule mockNodes hl None
                DEFAULT_HIGHLIGHTING_CONFIG 2 (plain_node "node3" "custom" 200 0)
                eq_refl)
      as (node' & Hout & _ & _ & Hnone & _).
    exists node'. split; [exact Hout |]. exact (Hnone eq_refl).
Defined.

(** C3 as stated fails at the empty string: it is a present identifier,
    the node is neither highlighted nor a background node, and yet it is not
    dimmed. *)
Lemma node_opacity_empty_selection_counterexample :
  let hl := {| highlightedNodes := ∅; highlightedEdges := ∅ |} in
  ∃ node',
    (applyNodeHighlighting mockNodes hl (Some "") DEFAULT_HIGHLIGHTING_CONFIG
       !! 2%nat) = Some node'
    ∧ (node_id node' ∉ highlightedNodes hl)
    ∧ node_type node' ≠ Some "background"
    ∧ style_entry (node_style node') "opacity"
      ≠ Some (VNum (dimmedOpacity DEFAULT_HIGHLIGHTING_CONFIG)).
Proof.
  simpl. eexists. split; [reflexivity |]. simpl.
  split; [apply not_elem_of_empty |]. split; [discriminate |].
  rewrite lookup_insert_eq. discriminate.
Qed.

(** ** The edge style projector *)

Lemma style_edge_entries hl sel cfg edge :
  let isHighlighted := edge_isHighlighted hl edge in
  let st := edge_style (style_edge hl sel cfg edge) in
  style_entry st "strokeWidth" = Some (VNum (edge_strokeWidth cfg isHighlighted))
  ∧ style_entry st "stroke" = Some (VStr (edge_strokeColor cfg isHighlighted))
  ∧ style_entry st "opacity" = Some (VNum (edge_opacity sel cfg isHighlighted)).
Proof.
  simpl. split; [| split].
  - rewrite lookup_insert_ne by done. rewrite lookup_insert_ne by done.
    apply lookup_insert_eq.
  - rewrite lookup_insert_ne by done. apply lookup_insert_eq.
  - apply lookup_insert_eq.
Qed.

(** C4, as amended: with [isHighlighted] the membership of the edge's
    identifier in [highlight.highlightedEdges], the output edge has stroke
    width [highlightedStrokeWidth] or [normalStrokeWidth], stroke color
    [highlightedEdgeColor] or [normalEdgeColor], and [animated] equal to
    [isHighlighted]; its opacity is [highlightedOpacity] when no identifier
    is selected and, when the selected identifier is present and not the
    empty string, [highlightedOpacity] if [isHighlighted] and
    [dimmedOpacity] if not. *)
Theorem edge_style_rule (edges : list Edge) (hl : HighlightingResult)
    (sel : option string) (cfg : HighlightingConfig) (i : nat) (edge : Edge) :
  edges !! i = Some edge →
  let isHighlighted := bool_decide (edge_id edge ∈ highlightedEdges hl) in
  ∃ edge',
    applyEdgeHighlighting edges hl sel cfg !! i = Some edge'
    ∧ style_entry (edge_style edge') "strokeWidth"
      = Some (VNum (if isHighlighted then highlightedStrokeWidth cfg
                    else normalStrokeWidth cfg))
    ∧ style_entry (edge_style edge') "stroke"
      = Some (VStr (if isHighlighted then highlightedEdgeColor cfg
                    else normalEdgeColor cfg))
    ∧ (sel = None →
       style_entry (edge_style edge') "opacity"
       = Some (VNum (highlightedOpacity cfg)))
    ∧ (∀ s, sel = Some s → s ≠ "" →
       style_entry (edge_style edge') "opacity"
       = Some (VNum (if isHighlighted then highlightedOpacity cfg
                     else dimmedOpacity cfg)))
    ∧ edge_animated edge' = Some isHighlighted.
Proof.
  intros Hi isHighlighted. exists (style_edge hl sel cfg edge).
  rewrite applyEdgeHighlighting_lookup, Hi. split; [done |].
  destruct (style_edge_entries hl sel cfg edge) as (Hw & Hc & Ho).
  split; [exact Hw |]. split; [exact Hc |]. rewrite Ho.
  split; [| split]; [| | done].
  - by intros ->.
  - intros s -> Hs%string_truthy_nonempty. unfold edge_opacity; simpl.
    by rewrite Hs.
Qed.

Lemma edge_style_rule_witness :
  let hl := calculateHighlighting (Some "node1") mockEdges in
  (∃ edge',
     applyEdgeHighlighting mockEdges hl (Some "node1")
       DEFAULT_HIGHLIGHTING_CONFIG !! 0%nat = Some edge'
     ∧ style_entry (edge_style edge') "strokeWidth" = Some (VNum 3%Q)
     ∧ style_entry (edge_style edge') "stroke" = Some (VStr "#3b82f6")
     ∧ style_entry (edge_style edge') "opacity" = Some (VNum 1%Q)
     ∧ edge_animated edge' = Some true)
  ∧ (∃ edge',
       applyEdgeHighlighting mockEdges hl (Some "node1")
         DEFAULT_HIGHLIGHTING_CONFIG !! 3%nat = Some edge'
       ∧ style_entry (edge_style edge') "opacity" = Some (VNum (3 # 10)%Q)
       ∧ edge_animated edge' = Some false)
  ∧ (∃ edge',
       applyEdgeHighlighting mockEdges hl None
         DEFAULT_HIGHLIGHTING_CONFIG !! 3%nat = Some edge'
       ∧ style_entry (edge_style edge') "opacity" = Some (VNum 1%Q)).
Proof.
  intros hl. split; [| split].
  - destruct (edge_style_rule mockEdges hl (Some "node1")
                DEFAULT_HIGHLIGHTING_CONFIG 0 (plain_edge "e1" "node1" "node2")
                eq_refl)
      as (edge' & Hout & Hw & Hc & _ & Ho & Ha).
    exists edge'. split; [exact Hout |].
    rewrite Hw, Hc, Ha, (Ho "node1" eq_refl); [| discriminate].
    vm_compute. repeat split; reflexivity.
  - destruct (edge_style_rule mockEdges hl (Some "node1")
                DEFAULT_HIGHLIGHTING_CONFIG 3 (plain_edge "e4" "node5" "node6")
                eq_refl)
      as (edge' & Hout & _ & _ & _ & Ho & Ha).
    exists edge'. split; [exact Hout |].
    rewrite Ha, (Ho "node1" eq_refl); [| discriminate].
    vm_compute. split; reflexivity.
  - destruct (edge_style_rule mockEdges hl None
                DEFAULT_HIGHLIGHTING_CONFIG 3 (plain_edge "e4" "node5" "node6")
                eq_refl)
      as (edge' & Hout & _ & _ & Hnone & _).
    exists edge'. split; [exact Hout |]. exact (Hnone eq_refl).
Defined.

(** C4 as stated fails at the empty string: it is a present identifier,
    the edge is not highlighted, and yet its opacity is not the dimmed
    one. *)
Lemma edge_opacity_empty_selection_counterexample :
  let hl := {| highlightedNodes := ∅; highlightedEdges := ∅ |} in
  ∃ edge',
    (applyEdgeHighlighting mockEdges hl (Some "") DEFAULT_HIGHLIGHTING_CONFIG
       !! 3%nat) = Some edge'
    ∧ (edge_id edge' ∉ highlightedEdges hl)
    ∧ style_entry (edge_style edge') "opacity"
      ≠ Some (VNum (dimmedOpacity DEFAULT_HIGHLIGHTING_CONFIG)).
Proof.
  simpl. eexists. split; [reflexivity |]. simpl.
  split; [apply not_elem_of_empty |].
  rewrite lookup_insert_eq. discriminate.
Qed.

(** ** What the projectors leave alone *)

Lemma fmap_project_fmap {A B} (g : A → B) (f : A → A) (l : list A) :
  (∀ x, g (f x) = g x) → g <$> (f <$> l) = g <$> l.
Proof.
  intros H. induction l as [| x l IH]; [done |].
  rewrite !fmap_cons. by rewrite H, IH.
Qed.

(** C6: both projectors return a list of the same length, in the same
    order, whose elements have every field but the style fields ([style],
    and for an edge [animated]) equal to those of the input element at the
    same position. *)
Theorem projectors_preserve_frame (nodes : list Node) (edges : list Edge)
    (hl : HighlightingResult) (sel : option string) (cfg : HighlightingConfig) :
  let outNodes := applyNodeHighlighting nodes hl sel cfg in
  let outEdges := applyEdgeHighlighting edges hl sel cfg in
  (length outNodes = length nodes
   ∧ node_id <$> outNodes = node_id <$> nodes
   ∧ node_type <$> outNodes = node_type <$> nodes
   ∧ node_rest <$> outNodes = node_rest <$> nodes)
  ∧ (length outEdges = length edges
     ∧ edge_id <$> outEdges = edge_id <$> edges
     ∧ edge_source <$> outEdges = edge_source <$> edges
     ∧ edge_target <$> outEdges = edge_target <$> edges
     ∧ edge_rest <$> outEdges = edge_rest <$> edges).
Proof.
  cbv zeta. unfold applyNodeHighlighting, applyEdgeHighlighting.
  rewrite !length_fmap. repeat split; by apply fmap_project_fmap.
Qed.

(** ** Order and repetition of the edges *)

Lemma HighlightingResult_eq (r1 r2 : HighlightingResult) :
  highlightedNodes r1 = highlightedNodes r2 →
  highlightedEdges r1 = highlightedEdges r2 →
  r1 = r2.
Proof. destruct r1, r2; simpl. by intros -> ->. Qed.

(** Two edge lists with the same members give the same result. *)
Lemma calculateHighlighting_same_members sel (edges edges' : list Edge) :
  (∀ e, e ∈ edges ↔ e ∈ edges') →
  calculateHighlighting (Some sel) edges = calculateHighlighting (Some sel) edges'.
Proof.
  intros Hmem. destruct (decide (sel = "")) as [-> | Hsel]; [done |].
  apply HighlightingResult_eq; apply set_eq; intros x.
  - rewrite !(elem_of_calculated_nodes _ _ _ Hsel).
    split; (intros [-> | (e & He & H)]; [by left | right; exists e]);
      (split; [by apply Hmem | done]).
  - rewrite !(elem_of_calculated_edges _ _ _ Hsel).
    split; intros (e & He & H); exists e; (split; [by apply Hmem | done]).
Qed.

(** C8: for a present selected identifier, permuting the edge list does not
    change the result of [calculateHighlighting], and neither does appending
    an edge that the list already holds. *)
Theorem calculateHighlighting_order_and_duplicates (sel : string)
    (edges : list Edge) :
  (∀ edges', edges ≡ₚ edges' →
     calculateHighlighting (Some sel) edges'
     = calculateHighlighting (Some sel) edges)
  ∧ (∀ e, e ∈ edges →
       calculateHighlighting (Some sel) (edges ++ [e])
       = calculateHighlighting (Some sel) edges
       ∧ highlightedNodes (calculateHighlighting (Some sel) (edges ++ [e]))
         = highlightedNodes (calculateHighlighting (Some sel) edges)
       ∧ highlightedEdges (calculateHighlighting (Some sel) (edges ++ [e]))
         = highlightedEdges (calculateHighlighting (Some sel) edges)).
Proof.
  split.
  - intros edges' Hperm. apply calculateHighlighting_same_members.
    intros e. by rewrite Hperm.
  - intros e He.
    assert (calculateHighlighting (Some sel) (edges ++ [e])
            = calculateHighlighting (Some sel) edges) as ->; [| done].
    apply calculateHighlighting_same_members. intros e'.
    rewrite elem_of_app, list_elem_of_singleton.
    split; [intros [H | ->]; done | by left].
Qed.

Lemma calculateHighlighting_order_and_duplicates_witness :
  calculateHighlighting (Some "node1") (reverse mockEdges)
  = calculateHighlighting (Some "node1") mockEdges
  ∧ calculateHighlighting (Some "node1")
      (mockEdges ++ [plain_edge "e1" "node1" "node2"])
    = calculateHighlighting (Some "node1") mockEdges.
Proof.
  destruct (calculateHighlighting_order_and_duplicates "node1" mockEdges)
    as [Hperm Hdup].
  split.
  - apply Hperm. symmetry. apply reverse_Permutation.
  - apply Hdup. unfold mockEdges. apply list_elem_of_here.
Defined.

(** ** The empty string as selected identifier *)

Lemma node_opacity_falsy hl sel cfg node :
  js_truthy sel = false → node_opacity hl sel cfg node = highlightedOpacity cfg.
Proof. unfold node_opacity. by intros ->. Qed.

Lemma edge_opacity_falsy sel cfg b :
  js_truthy sel = false → edge_opacity sel cfg b = highlightedOpacity cfg.
Proof. unfold edge_opacity. by intros ->. Qed.

(** C9: with the empty string as selected identifier, each of the four
    functions returns what it returns with no selected identifier: the two
    highlight sets are empty and every node and edge has the opacity
    [config.highlightedOpacity]. *)
Theorem empty_string_is_no_selection (nodes : list Node) (edges : list Edge)
    (hl : HighlightingResult) (cfg : HighlightingConfig) :
  calculateHighlighting (Some "") edges = calculateHighlighting None edges
  ∧ applyNodeHighlighting nodes hl (Some "") cfg
    = applyNodeHighlighting nodes hl None cfg
  ∧ applyEdgeHighlighting edges hl (Some "") cfg
    = applyEdgeHighlighting edges hl None cfg
  ∧ applyCompleteHighlighting nodes edges (Some "") cfg
    = applyCompleteHighlighting nodes edges None cfg
  ∧ highlightedNodes (calculateHighlighting (Some "") edges) = ∅
  ∧ highlightedEdges (calculateHighlighting (Some "") edges) = ∅
  ∧ Forall (λ n, style_entry (node_style n) "opacity"
                 = Some (VNum (highlightedOpacity cfg)))
           (applyNodeHighlighting nodes hl (Some "") cfg)
  ∧ Forall (λ e, style_entry (edge_style e) "opacity"
                 = Some (VNum (highlightedOpacity cfg)))
           (applyEdgeHighlighting edges hl (Some "") cfg)
  ∧ Forall (λ n, style_entry (node_style n) "opacity"
                 = Some (VNum (highlightedOpacity cfg)))
           (styledNodes (applyCompleteHighlighting nodes edges (Some "") cfg))
  ∧ Forall (λ e, style_entry (edge_style e) "opacity"
                 = Some (VNum (highlightedOpacity cfg)))
           (styledEdges (applyCompleteHighlighting nodes edges (Some "") cfg)).
Proof.
  assert (HN : ∀ hl', Forall (λ n, style_entry (node_style n) "opacity"
                 = Some (VNum (highlightedOpacity cfg)))
           (applyNodeHighlighting nodes hl' (Some "") cfg)).
  { intros hl'. apply Forall_fmap, Forall_forall. intros n _.
    unfold compose. by rewrite style_node_opacity, node_opacity_falsy. }
  assert (HE : ∀ hl', Forall (λ e, style_entry (edge_style e) "opacity"
                 = Some (VNum (highlightedOpacity cfg)))
           (applyEdgeHighlighting edges hl' (Some "") cfg)).
  { intros hl'. apply Forall_fmap, Forall_forall. intros e _.
    unfold compose.
    destruct (style_edge_entries hl' (Some "") cfg e) as (_ & _ & ->).
    by rewrite edge_opacity_falsy. }
  repeat split; try done; first [apply HN | apply HE].
Qed.

(** ** Style entries the projectors do not set *)

(** C10: the style of an output node is the style of the input node with
    the [opacity] entry set and every other entry as it was; the style of an
    output edge is the style of the input edge with the [strokeWidth],
    [stroke] and [opacity] entries set and every other entry as it was. A
    missing ([undefined]) input style counts as one without entries. *)
Theorem projectors_keep_other_style_entries (nodes : list Node)
    (edges : list Edge) (hl : HighlightingResult) (sel : option string)
    (cfg : HighlightingConfig) (i : nat) :
  (∀ node, nodes !! i = Some node →
     ∃ node' v,
       applyNodeHighlighting nodes hl sel cfg !! i = Some node'
       ∧ node_style node' = Some (<["opacity" := v]> (spread (node_style node)))
       ∧ ∀ k, k ≠ "opacity" →
              style_entry (node_style node') k
              = style_entry (node_style node) k)
  ∧ (∀ edge, edges !! i = Some edge →
       ∃ edge' w c o,
         applyEdgeHighlighting edges hl sel cfg !! i = Some edge'
         ∧ edge_style edge'
           = Some (<["opacity" := o]>
                     (<["stroke" := c]>
                        (<["strokeWidth" := w]> (spread (edge_style edge)))))
         ∧ ∀ k, k ≠ "strokeWidth" → k ≠ "stroke" → k ≠ "opacity" →
                style_entry (edge_style edge') k
                = style_entry (edge_style edge) k).
Proof.
  split.
  - intros node Hi. eexists _, _.
    rewrite applyNodeHighlighting_lookup, Hi. split; [reflexivity |].
    split; [reflexivity |]. intros k Hk. simpl.
    rewrite lookup_insert_ne by done. by destruct (node_style node).
  - intros edge Hi. eexists _, _, _, _.
    rewrite applyEdgeHighlighting_lookup, Hi. split; [reflexivity |].
    split; [reflexivity |]. intros k Hw Hc Ho. simpl.
    rewrite !lookup_insert_ne by done. by destruct (edge_style edge).
Qed.

Lemma projectors_keep_other_style_entries_witness :
  let hl := calculateHighlighting (Some "node1") [dashedEdge] in
  (∃ node',
     applyNodeHighlighting [sizedNode] hl (Some "node1")
       DEFAULT_HIGHLIGHTING_CONFIG !! 0%nat = Some node'
     ∧ style_entry (node_style node') "width" = Some (VNum 100%Q)
     ∧ style_entry (node_style node') "opacity" = Some (VNum 1%Q))
  ∧ (∃ edge',
       applyEdgeHighlighting [dashedEdge] hl (Some "node1")
         DEFAULT_HIGHLIGHTING_CONFIG !! 0%nat = Some edge'
       ∧ style_entry (edge_style edge') "strokeDasharray" = Some (VStr "5 5")
       ∧ style_entry (edge_style edge') "stroke" = Some (VStr "#3b82f6")).
Proof.
  intros hl.
  destruct (projectors_keep_other_style_entries [sizedNode] [dashedEdge] hl
              (Some "node1") DEFAULT_HIGHLIGHTING_CONFIG 0) as [HN HE].
  destruct (HN sizedNode eq_refl) as (node' & v & Hn & Hst & Hk).
  destruct (HE dashedEdge eq_refl) as (edge' & w & c & o & He & Hst' & Hk').
  split.
  - exists node'. split; [exact Hn |]. split.
    + rewrite (Hk "width"); [vm_compute; reflexivity | discriminate].
    + injection Hn as <-. vm_compute. reflexivity.
  - exists edge'. split; [exact He |]. split.
    + rewrite (Hk' "strokeDasharray");
        [vm_compute; reflexivity | discriminate | discriminate | discriminate].
    + injection He as <-. vm_compute. reflexivity.
Defined.


(** * Properties of the functions over the store *)

(** ** Rules for the computations *)

Lemma runs_ret {A} (a : A) (σ : Store.store) (Q : A → Store.store → Prop) :
  Q a σ → Store.runs (mret a) σ Q.
Proof. intros H. by exists a, σ. Qed.

Lemma runs_bind {A B} (m : Store.M A) (k : A → Store.M B) (σ : Store.store)
    (Q : B → Store.store → Prop) :
  Store.runs m σ (λ a σ', Store.runs (k a) σ' Q) → Store.runs (m ≫= k) σ Q.
Proof.
  intros (a & σ' & Hm & b & σ'' & Hk & HQ). exists b, σ''. split; [| done].
  unfold mbind, Store.M_bind. by rewrite Hm.
Qed.

Lemma runs_mono {A} (m : Store.M A) (σ : Store.store)
    (Q Q' : A → Store.store → Prop) :
  Store.runs m σ Q → (∀ a σ', Q a σ' → Q' a σ') → Store.runs m σ Q'.
Proof. intros (a & σ' & Hm & HQ) H. exists a, σ'. auto. Qed.

Lemma runs_alloc c (σ : Store.store) (Q : Store.loc → Store.store → Prop) :
  (∀ l, σ !! l = None → Q l (<[l := c]> σ)) → Store.runs (Store.alloc c) σ Q.
Proof.
  intros H. eexists _, _. split; [reflexivity |].
  apply H, not_elem_of_dom, is_fresh.
Qed.

Lemma runs_read l c (σ : Store.store) (Q : Store.cell → Store.store → Prop) :
  σ !! l = Some c → Q c σ → Store.runs (Store.read l) σ Q.
Proof. intros Hl H. exists c, σ. split; [| done]. unfold Store.read. by rewrite Hl. Qed.

Lemma runs_read_array l items (σ : Store.store)
    (Q : list Store.loc → Store.store → Prop) :
  σ !! l = Some (Store.CArray items) → Q items σ →
  Store.runs (Store.read_array l) σ Q.
Proof.
  intros Hl H. apply runs_bind, (runs_read _ _ _ _ Hl). by apply runs_ret.
Qed.

Lemma runs_set_add s x members (σ : Store.store)
    (Q : unit → Store.store → Prop) :
  σ !! s = Some (Store.CSet members) →
  Q () (<[s := Store.CSet ({[x]} ∪ members)]> σ) →
  Store.runs (Store.set_add s x) σ Q.
Proof.
  intros Hs H. apply runs_bind, (runs_read _ _ _ _ Hs). by eexists _, _.
Qed.

Lemma runs_set_has s x members (σ : Store.store)
    (Q : bool → Store.store → Prop) :
  Store.view_set σ s = Some members →
  Q (bool_decide (x ∈ members)) σ →
  Store.runs (Store.set_has s x) σ Q.
Proof.
  unfold Store.view_set. intros Hs H.
  destruct (σ !! s) as [[] |] eqn:Hl; try done. injection Hs as ->.
  apply runs_bind, (runs_read _ _ _ _ Hl). by apply runs_ret.
Qed.

Lemma runs_spread_style o st (σ : Store.store)
    (Q : Style → Store.store → Prop) :
  Store.view_style σ o = Some st →
  Q (spread st) σ →
  Store.runs (Store.spread_style o) σ Q.
Proof.
  destruct o as [l |]; simpl; intros Ho H.
  - destruct (σ !! l) as [[] |] eqn:Hl; try done. injection Ho as <-.
    apply runs_bind, (runs_read _ _ _ _ Hl). by apply runs_ret.
  - injection Ho as <-. by apply runs_ret.
Qed.

(** ** A larger store shows the same values *)

Lemma view_style_mono (σ σ' : Store.store) o st :
  σ ⊆ σ' → Store.view_style σ o = Some st → Store.view_style σ' o = Some st.
Proof.
  intros Hsub. destruct o as [l |]; simpl; [| done].
  destruct (σ !! l) as [c |] eqn:Hl; [| done].
  by rewrite (lookup_weaken _ _ _ _ Hl Hsub).
Qed.

Lemma view_node_mono (σ σ' : Store.store) l n :
  σ ⊆ σ' → Store.view_node σ l = Some n → Store.view_node σ' l = Some n.
Proof.
  intros Hsub. unfold Store.view_node.
  destruct (σ !! l) as [c |] eqn:Hl; [| done].
  rewrite (lookup_weaken _ _ _ _ Hl Hsub). destruct c; try done.
  destruct (Store.view_style σ style) as [st |] eqn:Hst; [| done].
  by rewrite (view_style_mono _ _ _ _ Hsub Hst).
Qed.

Lemma view_edge_mono (σ σ' : Store.store) l e :
  σ ⊆ σ' → Store.view_edge σ l = Some e → Store.view_edge σ' l = Some e.
Proof.
  intros Hsub. unfold Store.view_edge.
  destruct (σ !! l) as [c |] eqn:Hl; [| done].
  rewrite (lookup_weaken _ _ _ _ Hl Hsub). destruct c; try done.
  destruct (Store.view_style σ style) as [st |] eqn:Hst; [| done].
  by rewrite (view_style_mono _ _ _ _ Hsub Hst).
Qed.

Lemma view_set_mono (σ σ' : Store.store) l s :
  σ ⊆ σ' → Store.view_set σ l = Some s → Store.view_set σ' l = Some s.
Proof.
  intros Hsub. unfold Store.view_set.
  destruct (σ !! l) as [c |] eqn:Hl; [| done].
  by rewrite (lookup_weaken _ _ _ _ Hl Hsub).
Qed.

Lemma view_result_mono (σ σ' : Store.store) r hl :
  σ ⊆ σ' → Store.view_result σ r = Some hl → Store.view_result σ' r = Some hl.
Proof.
  intros Hsub. unfold Store.view_result.
  destruct (Store.view_set σ (Store.highlightedNodesRef r)) as [ns |] eqn:Hn; [| done].
  destruct (Store.view_set σ (Store.highlightedEdgesRef r)) as [es |] eqn:He; [| done].
  by rewrite (view_set_mono _ _ _ _ Hsub Hn), (view_set_mono _ _ _ _ Hsub He).
Qed.

Lemma view_array_Some {A} (view : Store.store → Store.loc → option A)
    (σ : Store.store) l xs :
  Store.view_array view σ l = Some xs
  ↔ ∃ items, σ !! l = Some (Store.CArray items)
             ∧ Forall2 (λ i x, view σ i = Some x) items xs.
Proof.
  unfold Store.view_array. split.
  - destruct (σ !! l) as [[] |]; try done. intros H%mapM_Some. eauto.
  - intros (items & -> & H). by apply mapM_Some.
Qed.

Lemma view_array_mono {A} (view : Store.store → Store.loc → option A)
    (σ σ' : Store.store) l xs :
  (∀ i x, view σ i = Some x → view σ' i = Some x) →
  σ ⊆ σ' →
  Store.view_array view σ l = Some xs → Store.view_array view σ' l = Some xs.
Proof.
  intros Hview Hsub (items & Hl & Hall)%view_array_Some.
  apply view_array_Some. exists items.
  split; [by apply (lookup_weaken _ _ _ _ Hl Hsub) |].
  eapply Forall2_impl; [exact Hall |]. apply Hview.
Qed.

Lemma view_nodes_mono (σ σ' : Store.store) l ns :
  σ ⊆ σ' → Store.view_nodes σ l = Some ns → Store.view_nodes σ' l = Some ns.
Proof. intros Hsub. apply view_array_mono; [| done]. intros ??. by apply view_node_mono. Qed.

Lemma view_edges_mono (σ σ' : Store.store) l es :
  σ ⊆ σ' → Store.view_edges σ l = Some es → Store.view_edges σ' l = Some es.
Proof. intros Hsub. apply view_array_mono; [| done]. intros ??. by apply view_edge_mono. Qed.

Lemma view_node_Some (σ : Store.store) l n :
  Store.view_node σ l = Some n →
  ∃ style,
    σ !! l = Some (Store.CNode (node_id n) (node_type n) style (node_rest n))
    ∧ Store.view_style σ style = Some (node_style n).
Proof.
  unfold Store.view_node. destruct (σ !! l) as [[] |]; try done.
  destruct (Store.view_style σ style) as [st |] eqn:Hst; [| done].
  simpl. intros [= <-]. by exists style.
Qed.

Lemma view_edge_Some (σ : Store.store) l e :
  Store.view_edge σ l = Some e →
  ∃ style,
    σ !! l = Some (Store.CEdge (edge_id e) (edge_source e) (edge_target e)
                     style (edge_animated e) (edge_rest e))
    ∧ Store.view_style σ style = Some (edge_style e).
Proof.
  unfold Store.view_edge. destruct (σ !! l) as [[] |]; try done.
  destruct (Store.view_style σ style) as [st |] eqn:Hst; [| done].
  simpl. intros [= <-]. by exists style.
Qed.

(** Two allocations in a row leave the cells that were there alone. *)
Lemma insert_fresh_twice_subseteq (σ : Store.store) l1 l2 c1 c2 :
  σ !! l1 = None → <[l1 := c1]> σ !! l2 = None →
  l1 ≠ l2 ∧ σ !! l2 = None ∧ σ ⊆ <[l2 := c2]> (<[l1 := c1]> σ).
Proof.
  intros H1 H2.
  assert (l1 ≠ l2) as Hne by (intros ->; by rewrite lookup_insert_eq in H2).
  split; [done |]. split; [by rewrite lookup_insert_ne in H2 |].
  trans (<[l1 := c1]> σ); by apply insert_subseteq.
Qed.

(** ** The loop of the calculator *)

(** One callback of [forEach] updates the two set cells the way
    [visit_edge] updates the two sets, and touches no other cell. *)
Lemma runs_visit_edge sel hn he (σ0 σ : Store.store) l e acc :
  σ0 !! hn = None → σ0 !! he = None → hn ≠ he →
  Store.view_edge σ0 l = Some e →
  σ0 ⊆ σ →
  σ !! hn = Some (Store.CSet (highlightedNodes acc)) →
  σ !! he = Some (Store.CSet (highlightedEdges acc)) →
  Store.runs (Store.visit_edge sel hn he l) σ (λ _ σ',
    σ0 ⊆ σ'
    ∧ σ' !! hn = Some (Store.CSet (highlightedNodes (visit_edge sel acc e)))
    ∧ σ' !! he = Some (Store.CSet (highlightedEdges (visit_edge sel acc e)))).
Proof.
  intros Hhn Hhe Hne (style & Hl & _)%view_edge_Some Hsub Hn He.
  apply runs_bind, (runs_read _ _ _ _ (lookup_weaken _ _ _ _ Hl Hsub)).
  unfold visit_edge.
  destruct (bool_decide (edge_source e = sel) || bool_decide (edge_target e = sel));
    [| by apply runs_ret].
  apply runs_bind, (runs_set_add _ _ _ _ _ He).
  apply runs_bind, (runs_set_add _ _ (highlightedNodes acc)).
  { by rewrite lookup_insert_ne. }
  eapply runs_set_add; [apply lookup_insert_eq |]. simpl.
  split; [| split].
  - do 3 (apply insert_subseteq_r; [done |]). done.
  - apply lookup_insert_eq.
  - do 2 rewrite lookup_insert_ne by done. apply lookup_insert_eq.
Qed.

Lemma runs_forEach_visit_edge sel hn he (σ0 : Store.store) items edges :
  σ0 !! hn = None → σ0 !! he = None → hn ≠ he →
  Forall2 (λ l e, Store.view_edge σ0 l = Some e) items edges →
  ∀ (σ : Store.store) acc,
    σ0 ⊆ σ →
    σ !! hn = Some (Store.CSet (highlightedNodes acc)) →
    σ !! he = Some (Store.CSet (highlightedEdges acc)) →
    Store.runs (Store.forEach (Store.visit_edge sel hn he) items) σ (λ _ σ',
      σ0 ⊆ σ'
      ∧ σ' !! hn
        = Some (Store.CSet (highlightedNodes (foldl (visit_edge sel) acc edges)))
      ∧ σ' !! he
        = Some (Store.CSet (highlightedEdges (foldl (visit_edge sel) acc edges)))).
Proof.
  intros Hhn Hhe Hne Hall.
  induction Hall as [| l e items edges Hl _ IH]; intros σ acc Hsub Hn He; simpl.
  - by apply runs_ret.
  - apply runs_bind.
    eapply runs_mono; [by apply (runs_visit_edge sel hn he σ0 σ l e acc) |].
    intros [] σ' (Hsub' & Hn' & He'). by apply IH.
Qed.

Lemma runs_empty_result (σ : Store.store) :
  Store.runs
    (highlightedNodes ← Store.alloc (Store.CSet ∅);
     highlightedEdges ← Store.alloc (Store.CSet ∅);
     mret {| Store.highlightedNodesRef := highlightedNodes;
             Store.highlightedEdgesRef := highlightedEdges |})
    σ (λ r σ',
      σ ⊆ σ'
      ∧ Store.view_result σ' r
        = Some {| highlightedNodes := ∅; highlightedEdges := ∅ |}).
Proof.
  apply runs_bind, runs_alloc. intros hn Hhn.
  apply runs_bind, runs_alloc. intros he Hhe.
  destruct (insert_fresh_twice_subseteq σ hn he (Store.CSet ∅) (Store.CSet ∅)
              Hhn Hhe) as (Hne & _ & Hsub).
  apply runs_ret. split; [done |].
  unfold Store.view_result, Store.view_set; simpl.
  rewrite lookup_insert_eq.
  rewrite lookup_insert_ne by done. by rewrite lookup_insert_eq.
Qed.

(** [calculateHighlighting] returns, changes no cell that existed before
    the call, and the two sets it returns are those of the value-level
    function on the edges the array holds. *)
Lemma store_calculateHighlighting (σ : Store.store) sel er edges :
  Store.view_edges σ er = Some edges →
  Store.runs (Store.calculateHighlighting sel er) σ (λ r σ',
    σ ⊆ σ'
    ∧ Store.view_result σ' r = Some (calculateHighlighting sel edges)).
Proof.
  intros (items & Her & Hall)%view_array_Some.
  unfold Store.calculateHighlighting, calculateHighlighting.
  destruct sel as [sel |]; [| apply runs_empty_result].
  destruct (negb (string_truthy sel)); [apply runs_empty_result |].
  apply runs_bind, runs_alloc. intros hn Hhn.
  apply runs_bind, runs_alloc. intros he Hhe.
  destruct (insert_fresh_twice_subseteq σ hn he (Store.CSet {[sel]})
              (Store.CSet ∅) Hhn Hhe) as (H & Hhe' & Hsub).
  apply runs_bind, (runs_read_array _ items).
  { by apply (lookup_weaken _ _ _ _ Her). }
  apply runs_bind.
  eapply runs_mono.
  { apply (runs_forEach_visit_edge sel hn he σ items edges Hhn Hhe' H Hall _
             {| highlightedNodes := {[sel]}; highlightedEdges := ∅ |});
      [done | |]; simpl.
    - rewrite lookup_insert_ne by done. apply lookup_insert_eq.
    - apply lookup_insert_eq. }
  intros [] σ' (Hsub' & Hn' & He'). apply runs_ret. split; [done |].
  unfold Store.view_result, Store.view_set; simpl. rewrite Hn', He'; simpl.
  by destruct (foldl _ _ _).
Qed.

(** ** The loops of the projectors *)

(** [items.map(f)] when each call of [f] only adds cells and returns a
    reference to the image under [g] of what it was given. *)
Lemma runs_map_items {A B} (viewA : Store.store → Store.loc → option A)
    (viewB : Store.store → Store.loc → option B)
    (f : Store.loc → Store.M Store.loc) (g : A → B)
    (σ0 : Store.store) items xs :
  (∀ (σ σ' : Store.store) l b, σ ⊆ σ' → viewB σ l = Some b → viewB σ' l = Some b) →
  (∀ (σ : Store.store) l a, σ0 ⊆ σ → viewA σ0 l = Some a →
     Store.runs (f l) σ (λ l' σ', σ ⊆ σ' ∧ viewB σ' l' = Some (g a))) →
  Forall2 (λ l a, viewA σ0 l = Some a) items xs →
  ∀ σ : Store.store, σ0 ⊆ σ →
    Store.runs (Store.map_items f items) σ (λ out σ',
      σ ⊆ σ' ∧ Forall2 (λ l b, viewB σ' l = Some b) out (g <$> xs)).
Proof.
  intros HmonoB Hf Hall.
  induction Hall as [| l a items xs Hl _ IH]; intros σ Hsub; simpl.
  - apply runs_ret. split; [done | constructor].
  - apply runs_bind. eapply runs_mono; [by apply (Hf σ l a) |].
    intros l' σ1 (Hsub1 & Hl'). apply runs_bind.
    eapply runs_mono; [apply (IH σ1); by trans σ |].
    intros out σ2 (Hsub2 & Hout). apply runs_ret.
    split; [by trans σ1 |].
    constructor; [by apply (HmonoB σ1 σ2) | done].
Qed.

(** Allocating the array that [map] returns. *)
Lemma runs_alloc_array {B} (viewB : Store.store → Store.loc → option B)
    (σ : Store.store) out ys :
  (∀ (σ σ' : Store.store) l b, σ ⊆ σ' → viewB σ l = Some b → viewB σ' l = Some b) →
  Forall2 (λ l b, viewB σ l = Some b) out ys →
  Store.runs (Store.alloc (Store.CArray out)) σ (λ l σ',
    σ ⊆ σ' ∧ Store.view_array viewB σ' l = Some ys).
Proof.
  intros HmonoB Hout. apply runs_alloc. intros l Hl.
  assert (σ ⊆ <[l := Store.CArray out]> σ) as Hsub by by apply insert_subseteq.
  split; [done |]. apply view_array_Some. exists out.
  split; [apply lookup_insert_eq |].
  eapply Forall2_impl; [exact Hout |]. intros ??. by apply HmonoB.
Qed.

Lemma runs_style_node (σ : Store.store) hr hl sel cfg l n :
  Store.view_result σ hr = Some hl →
  Store.view_node σ l = Some n →
  Store.runs (Store.style_node hr sel cfg l) σ (λ l' σ',
    σ ⊆ σ' ∧ Store.view_node σ' l' = Some (style_node hl sel cfg n)).
Proof.
  intros Hhr (style & Hl & Hst)%view_node_Some.
  unfold Store.view_result in Hhr.
  destruct (Store.view_set σ (Store.highlightedNodesRef hr)) as [ns |] eqn:Hns;
    [| done].
  destruct (Store.view_set σ (Store.highlightedEdgesRef hr)) as [es |] eqn:Hes;
    [| done].
  injection Hhr as <-.
  apply runs_bind, (runs_read _ _ _ _ Hl).
  apply runs_bind.
  assert (Store.runs
    (if js_truthy sel
     then isHighlighted ← Store.set_has (Store.highlightedNodesRef hr) (node_id n);
          mret (if isHighlighted || bool_decide (node_type n = Some "background")
                then highlightedOpacity cfg else dimmedOpacity cfg)
     else mret (highlightedOpacity cfg))
    σ (λ opacity σ', σ' = σ
         ∧ opacity = node_opacity {| highlightedNodes := ns; highlightedEdges := es |}
                       sel cfg n)) as Hop.
  { unfold node_opacity. destruct (js_truthy sel); [| by apply runs_ret].
    apply runs_bind, (runs_set_has _ _ _ _ _ Hns). by apply runs_ret. }
  eapply runs_mono; [exact Hop |]. intros opacity ? [-> ->].
  apply runs_bind, (runs_spread_style _ _ _ _ Hst).
  apply runs_bind, runs_alloc. intros ls Hls.
  apply runs_alloc. intros ln Hln.
  destruct (insert_fresh_twice_subseteq _ _ _ _
              (Store.CNode (node_id n) (node_type n) (Some ls) (node_rest n))
              Hls Hln) as (H & _ & Hsub).
  split; [exact Hsub |].
  - unfold Store.view_node. rewrite lookup_insert_eq. simpl.
    rewrite lookup_insert_ne by done. by rewrite lookup_insert_eq.
Qed.

Lemma runs_style_edge (σ : Store.store) hr hl sel cfg l e :
  Store.view_result σ hr = Some hl →
  Store.view_edge σ l = Some e →
  Store.runs (Store.style_edge hr sel cfg l) σ (λ l' σ',
    σ ⊆ σ' ∧ Store.view_edge σ' l' = Some (style_edge hl sel cfg e)).
Proof.
  intros Hhr (style & Hl & Hst)%view_edge_Some.
  unfold Store.view_result in Hhr.
  destruct (Store.view_set σ (Store.highlightedNodesRef hr)) as [ns |] eqn:Hns;
    [| done].
  destruct (Store.view_set σ (Store.highlightedEdgesRef hr)) as [es |] eqn:Hes;
    [| done].
  injection Hhr as <-.
  apply runs_bind, (runs_read _ _ _ _ Hl).
  apply runs_bind, (runs_set_has _ _ _ _ _ Hes).
  apply runs_bind, (runs_spread_style _ _ _ _ Hst).
  apply runs_bind, runs_alloc. intros ls Hls.
  apply runs_alloc. intros le Hle.
  destruct (insert_fresh_twice_subseteq _ _ _ _
              (Store.CEdge (edge_id e) (edge_source e) (edge_target e) (Some ls)
                 (Some (bool_decide (edge_id e ∈ es))) (edge_rest e))
              Hls Hle) as (H & _ & Hsub).
  split; [exact Hsub |].
  - unfold Store.view_edge. rewrite lookup_insert_eq. simpl.
    rewrite lookup_insert_ne by done. by rewrite lookup_insert_eq.
Qed.

(** ** The three functions and their composition *)

Lemma store_applyNodeHighlighting (σ : Store.store) nr hr hl sel cfg nodes :
  Store.view_nodes σ nr = Some nodes →
  Store.view_result σ hr = Some hl →
  Store.runs (Store.applyNodeHighlighting nr hr sel cfg) σ (λ out σ',
    σ ⊆ σ'
    ∧ Store.view_nodes σ' out = Some (applyNodeHighlighting nodes hl sel cfg)).
Proof.
  intros (items & Hnr & Hall)%view_array_Some Hhr.
  apply runs_bind, (runs_read_array _ _ _ _ Hnr).
  apply runs_bind. eapply runs_mono.
  { apply (runs_map_items Store.view_node Store.view_node
             (Store.style_node hr sel cfg) (style_node hl sel cfg) σ items nodes);
      [apply view_node_mono | | exact Hall | done].
    intros σ' l n Hsub Hl. apply runs_style_node.
    - by apply (view_result_mono σ).
    - by apply (view_node_mono σ). }
  intros out σ1 (Hsub1 & Hout). eapply runs_mono.
  { apply (runs_alloc_array Store.view_node σ1 out _ view_node_mono Hout). }
  intros l σ2 (Hsub2 & Hl). split; [by trans σ1 | done].
Qed.

Lemma store_applyEdgeHighlighting (σ : Store.store) er hr hl sel cfg edges :
  Store.view_edges σ er = Some edges →
  Store.view_result σ hr = Some hl →
  Store.runs (Store.applyEdgeHighlighting er hr sel cfg) σ (λ out σ',
    σ ⊆ σ'
    ∧ Store.view_edges σ' out = Some (applyEdgeHighlighting edges hl sel cfg)).
Proof.
  intros (items & Her & Hall)%view_array_Some Hhr.
  apply runs_bind, (runs_read_array _ _ _ _ Her).
  apply runs_bind. eapply runs_mono.
  { apply (runs_map_items Store.view_edge Store.view_edge
             (Store.style_edge hr sel cfg) (style_edge hl sel cfg) σ items edges);
      [apply view_edge_mono | | exact Hall | done].
    intros σ' l e Hsub Hl. apply runs_style_edge.
    - by apply (view_result_mono σ).
    - by apply (view_edge_mono σ). }
  intros out σ1 (Hsub1 & Hout). eapply runs_mono.
  { apply (runs_alloc_array Store.view_edge σ1 out _ view_edge_mono Hout). }
  intros l σ2 (Hsub2 & Hl). split; [by trans σ1 | done].
Qed.

(** [applyCompleteHighlighting] returns, changes no cell that existed before
    the call, and what it returns reads back as the result of the
    value-level function on what the two input arrays held. *)
Lemma store_applyCompleteHighlighting (σ : Store.store) nr er sel cfg nodes edges :
  Store.view_nodes σ nr = Some nodes →
  Store.view_edges σ er = Some edges →
  Store.runs (Store.applyCompleteHighlighting nr er sel cfg) σ (λ r σ',
    σ ⊆ σ'
    ∧ Store.view_complete σ' r
      = Some (applyCompleteHighlighting nodes edges sel cfg)).
Proof.
  intros Hnr Her. apply runs_bind. eapply runs_mono.
  { apply (store_calculateHighlighting σ sel er edges Her). }
  intros hr σ1 (Hsub1 & Hhr). apply runs_bind. eapply runs_mono.
  { apply (store_applyNodeHighlighting σ1 nr hr
             (calculateHighlighting sel edges) sel cfg nodes);
      [by apply (view_nodes_mono σ) | exact Hhr]. }
  intros ns σ2 (Hsub2 & Hns). apply runs_bind. eapply runs_mono.
  { apply (store_applyEdgeHighlighting σ2 er hr
             (calculateHighlighting sel edges) sel cfg edges);
      [apply (view_edges_mono σ); [by trans σ1 | done]
      | by apply (view_result_mono σ1)]. }
  intros es σ3 (Hsub3 & Hes). apply runs_ret.
  split; [trans σ1; [done |]; by trans σ2 |].
  unfold Store.view_complete; simpl.
  rewrite (view_nodes_mono _ _ _ _ Hsub3 Hns), Hes; simpl.
  assert (σ1 ⊆ σ3) as Hsub13 by by trans σ2.
  by rewrite (view_result_mono _ _ _ _ Hsub13 Hhr).
Qed.

Lemma view_complete_mono (σ σ' : Store.store) r c :
  σ ⊆ σ' → Store.view_complete σ r = Some c → Store.view_complete σ' r = Some c.
Proof.
  intros Hsub. unfold Store.view_complete.
  destruct (Store.view_nodes σ _) as [ns |] eqn:Hn; [| done].
  destruct (Store.view_edges σ _) as [es |] eqn:He; [| done].
  destruct (Store.view_result σ _) as [hr |] eqn:Hr; [| done].
  by rewrite (view_nodes_mono _ _ _ _ Hsub Hn), (view_edges_mono _ _ _ _ Hsub He),
    (view_result_mono _ _ _ _ Hsub Hr).
Qed.

(** ** Every input is held by some store *)

Lemma runs_put_style (σ : Store.store) o :
  Store.runs (Store.put_style o) σ (λ r σ',
    σ ⊆ σ' ∧ Store.view_style σ' r = Some o).
Proof.
  destruct o as [entries |]; simpl; [| by apply runs_ret].
  apply runs_bind, runs_alloc. intros l Hl. apply runs_ret.
  split; [by apply insert_subseteq |]. simpl. by rewrite lookup_insert_eq.
Qed.

Lemma runs_put_node (σ : Store.store) n :
  Store.runs (Store.put_node n) σ (λ l σ',
    σ ⊆ σ' ∧ Store.view_node σ' l = Some n).
Proof.
  apply runs_bind. eapply runs_mono; [apply runs_put_style |].
  intros style σ1 (Hsub1 & Hst). apply runs_alloc. intros l Hl.
  assert (σ1 ⊆ <[l := Store.CNode (node_id n) (node_type n) style (node_rest n)]> σ1)
    as Hsub2 by by apply insert_subseteq.
  split; [by trans σ1 |].
  unfold Store.view_node. rewrite lookup_insert_eq.
  rewrite (view_style_mono _ _ _ _ Hsub2 Hst). by destruct n.
Qed.

Lemma runs_put_edge (σ : Store.store) e :
  Store.runs (Store.put_edge e) σ (λ l σ',
    σ ⊆ σ' ∧ Store.view_edge σ' l = Some e).
Proof.
  apply runs_bind. eapply runs_mono; [apply runs_put_style |].
  intros style σ1 (Hsub1 & Hst). apply runs_alloc. intros l Hl.
  assert (σ1 ⊆ <[l := Store.CEdge (edge_id e) (edge_source e) (edge_target e)
                        style (edge_animated e) (edge_rest e)]> σ1)
    as Hsub2 by by apply insert_subseteq.
  split; [by trans σ1 |].
  unfold Store.view_edge. rewrite lookup_insert_eq.
  rewrite (view_style_mono _ _ _ _ Hsub2 Hst). by destruct e.
Qed.

Lemma runs_put_items {A} (view : Store.store → Store.loc → option A)
    (put : A → Store.M Store.loc) (xs : list A) :
  (∀ (σ σ' : Store.store) l x, σ ⊆ σ' → view σ l = Some x → view σ' l = Some x) →
  (∀ (σ : Store.store) x,
     Store.runs (put x) σ (λ l σ', σ ⊆ σ' ∧ view σ' l = Some x)) →
  ∀ σ : Store.store,
    Store.runs (Store.map_items put xs) σ (λ ls σ',
      σ ⊆ σ' ∧ Forall2 (λ l x, view σ' l = Some x) ls xs).
Proof.
  intros Hmono Hput. induction xs as [| x xs IH]; intros σ; simpl.
  - apply runs_ret. split; [done | constructor].
  - apply runs_bind. eapply runs_mono; [apply Hput |].
    intros l σ1 (Hsub1 & Hl). apply runs_bind.
    eapply runs_mono; [apply IH |].
    intros ls σ2 (Hsub2 & Hls). apply runs_ret.
    split; [by trans σ1 |]. constructor; [by apply (Hmono σ1 σ2) | done].
Qed.

(** Whatever the nodes and edges, there is a store with two arrays that
    hold them. *)
Lemma store_of_inputs (nodes : list Node) (edges : list Edge) :
  ∃ (σ : Store.store) nr er,
    Store.view_nodes σ nr = Some nodes ∧ Store.view_edges σ er = Some edges.
Proof.
  destruct (runs_put_items Store.view_node Store.put_node nodes
              view_node_mono runs_put_node ∅) as (ls & σ1 & _ & _ & Hls).
  destruct (runs_alloc_array Store.view_node σ1 ls nodes view_node_mono Hls)
    as (nr & σ2 & _ & _ & Hnr).
  destruct (runs_put_items Store.view_edge Store.put_edge edges
              view_edge_mono runs_put_edge σ2) as (ls' & σ3 & _ & Hsub3 & Hls').
  destruct (runs_alloc_array Store.view_edge σ3 ls' edges view_edge_mono Hls')
    as (er & σ4 & _ & Hsub4 & Her).
  exists σ4, nr, er. split; [| exact Her].
  apply (view_nodes_mono σ2); [by trans σ3 | exact Hnr].
Qed.

(** ** Calling twice *)

(** C7: when the node and edge arrays of a first call hold the same values
    as those of a second call (be they the same arrays or not), both calls of
    [applyCompleteHighlighting] return, the styled nodes, styled edges and
    highlight result they return read back as the same values, and every cell
    of the store that existed before a call, the input arrays and their
    elements among them, is unchanged after it. *)
Theorem applyCompleteHighlighting_twice (σ : Store.store)
    (nodes1 edges1 nodes2 edges2 : Store.loc) (sel : option string)
    (cfg : HighlightingConfig) (nodes : list Node) (edges : list Edge) :
  Store.view_nodes σ nodes1 = Some nodes →
  Store.view_edges σ edges1 = Some edges →
  Store.view_nodes σ nodes2 = Some nodes →
  Store.view_edges σ edges2 = Some edges →
  ∃ r1 σ1 r2 σ2 out,
    Store.applyCompleteHighlighting nodes1 edges1 sel cfg σ = Some (r1, σ1)
    ∧ Store.applyCompleteHighlighting nodes2 edges2 sel cfg σ1 = Some (r2, σ2)
    ∧ Store.view_complete σ1 r1 = Some out
    ∧ Store.view_complete σ2 r1 = Some out
    ∧ Store.view_complete σ2 r2 = Some out
    ∧ out = applyCompleteHighlighting nodes edges sel cfg
    ∧ σ ⊆ σ1 ∧ σ1 ⊆ σ2
    ∧ Store.view_nodes σ2 nodes1 = Some nodes
    ∧ Store.view_edges σ2 edges1 = Some edges
    ∧ Store.view_nodes σ2 nodes2 = Some nodes
    ∧ Store.view_edges σ2 edges2 = Some edges.
Proof.
  intros Hn1 He1 Hn2 He2.
  destruct (store_applyCompleteHighlighting σ nodes1 edges1 sel cfg nodes edges
              Hn1 He1) as (r1 & σ1 & Hrun1 & Hsub1 & Hout1).
  destruct (store_applyCompleteHighlighting σ1 nodes2 edges2 sel cfg nodes edges
              (view_nodes_mono _ _ _ _ Hsub1 Hn2)
              (view_edges_mono _ _ _ _ Hsub1 He2))
    as (r2 & σ2 & Hrun2 & Hsub2 & Hout2).
  assert (σ ⊆ σ2) as Hsub by by trans σ1.
  exists r1, σ1, r2, σ2, (applyCompleteHighlighting nodes edges sel cfg).
  split; [exact Hrun1 |]. split; [exact Hrun2 |]. split; [exact Hout1 |].
  split; [exact (view_complete_mono _ _ _ _ Hsub2 Hout1) |].
  split; [exact Hout2 |]. split; [reflexivity |].
  split; [exact Hsub1 |]. split; [exact Hsub2 |].
  split; [exact (view_nodes_mono _ _ _ _ Hsub Hn1) |].
  split; [exact (view_edges_mono _ _ _ _ Hsub He1) |].
  split; [exact (view_nodes_mono _ _ _ _ Hsub Hn2) |].
  exact (view_edges_mono _ _ _ _ Hsub He2).
Qed.

Lemma applyCompleteHighlighting_twice_witness :
  Store.mockNodesRef ≠ Store.mockNodesRef'
  ∧ ∃ r1 σ1 r2 σ2,
      Store.applyCompleteHighlighting Store.mockNodesRef Store.mockEdgesRef
        (Some "node1") DEFAULT_HIGHLIGHTING_CONFIG Store.mockCells
      = Some (r1, σ1)
      ∧ Store.applyCompleteHighlighting Store.mockNodesRef' Store.mockEdgesRef'
          (Some "node1") DEFAULT_HIGHLIGHTING_CONFIG σ1
        = Some (r2, σ2)
      ∧ Store.view_complete σ2 r1 = Store.view_complete σ2 r2
      ∧ Store.view_nodes σ2 Store.mockNodesRef = Some mockNodes
      ∧ Store.view_edges σ2 Store.mockEdgesRef = Some mockEdges.
Proof.
  split; [vm_compute; discriminate |].
  destruct (applyCompleteHighlighting_twice Store.mockCells
              Store.mockNodesRef Store.mockEdgesRef
              Store.mockNodesRef' Store.mockEdgesRef'
              (Some "node1") DEFAULT_HIGHLIGHTING_CONFIG mockNodes mockEdges)
    as (r1 & σ1 & r2 & σ2 & out & H1 & H2 & _ & Ho1 & Ho2 & _ & _ & _ & Hn & He & _);
    [vm_compute; reflexivity | vm_compute; reflexivity
    | vm_compute; reflexivity | vm_compute; reflexivity |].
  exists r1, σ1, r2, σ2.
  split; [exact H1 |]. split; [exact H2 |].
  split; [by rewrite Ho1, Ho2 |]. split; [exact Hn | exact He].
Defined.

(** ** No selection *)

(** C5: with no selected identifier, [calculateHighlighting] returns a
    result whose two sets are empty, whatever the edges: the value-level
    function has no error outcome, and over the store the call returns from
    every store and for every reference (it does not read the edges). *)
Theorem calculateHighlighting_absent (edges : list Edge) (σ : Store.store)
    (er : Store.loc) :
  calculateHighlighting None edges
  = {| highlightedNodes := ∅; highlightedEdges := ∅ |}
  ∧ highlightedNodes (calculateHighlighting None edges) = ∅
  ∧ highlightedEdges (calculateHighlighting None edges) = ∅
  ∧ ∃ r σ',
      Store.calculateHighlighting None er σ = Some (r, σ')
      ∧ σ ⊆ σ'
      ∧ Store.view_result σ' r
        = Some {| highlightedNodes := ∅; highlightedEdges := ∅ |}.
Proof.
  split; [done |]. split; [done |]. split; [done |].
  apply (runs_empty_result σ).
Qed.

(** * Further properties of the highlighting functions *)

(** A selected identifier either counts as none, or is a non-empty string. *)
Lemma selection_cases (sel : option string) :
  js_truthy sel = false ∨ ∃ s, sel = Some s ∧ s ≠ "".
Proof.
  destruct sel as [[| a s] |]; [by left | | by left].
  right. by eexists.
Qed.

(** ** The highlight sets hold nothing foreign *)

(** X1: Every highlighted edge identifier is the identifier of an edge of the
    input that touches the selected node, and every highlighted node
    identifier is the selected one or an endpoint of an edge of the input. *)
Theorem highlight_sets_come_from_edges (sel : option string)
    (edges : list Edge) :
  let result := calculateHighlighting sel edges in
  (∀ x, x ∈ highlightedEdges result →
        ∃ e, e ∈ edges ∧ edge_id e = x
             ∧ (Some (edge_source e) = sel ∨ Some (edge_target e) = sel))
  ∧ (∀ n, n ∈ highlightedNodes result →
          Some n = sel
          ∨ ∃ e, e ∈ edges ∧ (edge_source e = n ∨ edge_target e = n)).
Proof.
  cbv zeta. destruct (selection_cases sel) as [Hf | (s & -> & Hs)].
  - rewrite (calculateHighlighting_falsy _ _ Hf); simpl.
    split; intros x Hx; by apply not_elem_of_empty in Hx.
  - split.
    + intros x (e & He & Hi & ->)%(elem_of_calculated_edges _ _ _ Hs).
      exists e. split; [done |]. split; [done |].
      destruct Hi as [<- | <-]; [by left | by right].
    + intros n [-> | (e & He & _ & Hn)]%(elem_of_calculated_nodes _ _ _ Hs);
        [by left |].
      right. exists e. split; [done |]. destruct Hn as [-> | ->]; [by left | by right].
Qed.

Lemma highlight_sets_come_from_edges_witness :
  (∃ e, e ∈ mockEdges ∧ edge_id e = "e3"
        ∧ (Some (edge_source e) = Some "node1"
           ∨ Some (edge_target e) = Some "node1"))
  ∧ (Some "node4" = Some "node1"
     ∨ ∃ e, e ∈ mockEdges ∧ (edge_source e = "node4" ∨ edge_target e = "node4")).
Proof.
  destruct (highlight_sets_come_from_edges (Some "node1") mockEdges) as [HE HN].
  split.
  - apply HE. apply (bool_decide_unpack _). vm_compute. exact I.
  - apply HN. apply (bool_decide_unpack _). vm_compute. exact I.
Defined.

(** ** Edge lists put end to end *)

(** X2: The result for two edge lists put end to end is the union, set by set,
    of the results for each of them. *)
Theorem calculateHighlighting_app (sel : option string)
    (edges1 edges2 : list Edge) :
  highlightedNodes (calculateHighlighting sel (edges1 ++ edges2))
  = highlightedNodes (calculateHighlighting sel edges1)
    ∪ highlightedNodes (calculateHighlighting sel edges2)
  ∧ highlightedEdges (calculateHighlighting sel (edges1 ++ edges2))
    = highlightedEdges (calculateHighlighting sel edges1)
      ∪ highlightedEdges (calculateHighlighting sel edges2).
Proof.
  destruct (selection_cases sel) as [Hf | (s & -> & Hs)].
  - rewrite !(calculateHighlighting_falsy _ _ Hf); simpl.
    by rewrite (left_id_L ∅ (∪)).
  - split; apply set_eq; intros x; rewrite elem_of_union.
    + rewrite !(elem_of_calculated_nodes _ _ _ Hs). split.
      * intros [-> | (e & [He | He]%elem_of_app & H)];
          [left; by left | left; right; by exists e | right; right; by exists e].
      * intros [[-> | (e & He & H)] | [-> | (e & He & H)]];
          [by left | right; exists e | by left | right; exists e];
          (split; [apply elem_of_app; first [by left | by right] | done]).
    + rewrite !(elem_of_calculated_edges _ _ _ Hs). split.
      * intros (e & [He | He]%elem_of_app & H);
          [left; by exists e | right; by exists e].
      * intros [(e & He & H) | (e & He & H)]; exists e;
          (split; [apply elem_of_app; first [by left | by right] | done]).
Qed.

(** ** Neighbours of neighbours *)

(** X3: Being highlighted is mutual: when selecting [s] highlights the node
    [n], selecting [n] highlights [s] (both identifiers non-empty). *)
Theorem highlighted_neighbour_is_mutual (s n : string) (edges : list Edge) :
  s ≠ "" → n ≠ "" →
  n ∈ highlightedNodes (calculateHighlighting (Some s) edges) →
  s ∈ highlightedNodes (calculateHighlighting (Some n) edges).
Proof.
  intros Hs Hn [-> | (e & He & Hi & Hends)]%(elem_of_calculated_nodes _ _ _ Hs);
    apply (elem_of_calculated_nodes _ _ _ Hn); [by left |].
  right. exists e. split; [done |]. unfold incident in *.
  destruct Hi as [<- | <-], Hends as [-> | ->]; auto.
Qed.

Lemma highlighted_neighbour_is_mutual_witness :
  "node1" ∈ highlightedNodes (calculateHighlighting (Some "node4") mockEdges).
Proof.
  apply (highlighted_neighbour_is_mutual "node1" "node4" mockEdges);
    [discriminate | discriminate |].
  apply (bool_decide_unpack _). vm_compute. exact I.
Defined.

(** ** Background nodes *)

(** X4: A node of type ["background"] comes out with the opacity
    [config.highlightedOpacity], whatever the selection and the highlight
    sets. *)
Theorem background_nodes_never_dimmed (nodes : list Node)
    (hl : HighlightingResult) (sel : option string) (cfg : HighlightingConfig)
    (i : nat) (node : Node) :
  nodes !! i = Some node →
  node_type node = Some "background" →
  ∃ node',
    applyNodeHighlighting nodes hl sel cfg !! i = Some node'
    ∧ node_id node' = node_id node
    ∧ style_entry (node_style node') "opacity"
      = Some (VNum (highlightedOpacity cfg)).
Proof.
  intros Hi Hbg. exists (style_node hl sel cfg node).
  rewrite applyNodeHighlighting_lookup, Hi. split; [done |]. split; [done |].
  rewrite style_node_opacity. unfold node_opacity.
  rewrite (bool_decide_eq_true_2 _ Hbg), orb_true_r. by destruct (js_truthy sel).
Qed.

Lemma background_nodes_never_dimmed_witness :
  ∃ node',
    applyNodeHighlighting mockNodes
      (calculateHighlighting (Some "node1") mockEdges) (Some "node1")
      DEFAULT_HIGHLIGHTING_CONFIG !! 6%nat = Some node'
    ∧ node_id node' = "bg1"
    ∧ style_entry (node_style node') "opacity" = Some (VNum 1%Q).
Proof.
  exact (background_nodes_never_dimmed mockNodes
           (calculateHighlighting (Some "node1") mockEdges) (Some "node1")
           DEFAULT_HIGHLIGHTING_CONFIG 6 (plain_node "bg1" "background" 0 0)
           eq_refl eq_refl).
Defined.

(** ** Styling what is already styled *)

Lemma style_node_style_node hl1 sel1 cfg1 hl2 sel2 cfg2 node :
  style_node hl2 sel2 cfg2 (style_node hl1 sel1 cfg1 node)
  = style_node hl2 sel2 cfg2 node.
Proof.
  unfold style_node at 1 3. simpl. f_equal. f_equal.
  by rewrite insert_insert_eq.
Qed.

Lemma style_edge_style_edge hl1 sel1 cfg1 hl2 sel2 cfg2 edge :
  style_edge hl2 sel2 cfg2 (style_edge hl1 sel1 cfg1 edge)
  = style_edge hl2 sel2 cfg2 edge.
Proof.
  unfold style_edge at 1 3. simpl. f_equal. f_equal.
  apply map_eq. intros k. rewrite !lookup_insert.
  repeat case_decide; done.
Qed.

(** X5: Projecting a second time, with any highlight sets, selection and
    configuration, gives what projecting the original nodes or edges with
    them gives: nothing of the earlier projection is left. *)
Theorem last_projection_wins (nodes : list Node) (edges : list Edge)
    (hl1 hl2 : HighlightingResult) (sel1 sel2 : option string)
    (cfg1 cfg2 : HighlightingConfig) :
  applyNodeHighlighting (applyNodeHighlighting nodes hl1 sel1 cfg1) hl2 sel2 cfg2
  = applyNodeHighlighting nodes hl2 sel2 cfg2
  ∧ applyEdgeHighlighting (applyEdgeHighlighting edges hl1 sel1 cfg1) hl2 sel2 cfg2
    = applyEdgeHighlighting edges hl2 sel2 cfg2.
Proof.
  unfold applyNodeHighlighting, applyEdgeHighlighting.
  rewrite <- !list_fmap_compose. split; apply list_fmap_ext; intros ? x _; simpl.
  - apply style_node_style_node.
  - apply style_edge_style_edge.
Qed.

(** ** Nodes and edges styled together *)

Lemma node_opacity_highlighted hl sel cfg node :
  node_id node ∈ highlightedNodes hl →
  node_opacity hl sel cfg node = highlightedOpacity cfg.
Proof.
  intros H. unfold node_opacity. rewrite (bool_decide_eq_true_2 _ H); simpl.
  by destruct (js_truthy sel).
Qed.

(** X6: When edge identifiers are unique, [applyCompleteHighlighting] never
    joins an animated edge to a dimmed node: every styled node that is the
    source or the target of an animated styled edge has the opacity
    [config.highlightedOpacity]. *)
Theorem animated_edges_join_undimmed_nodes (nodes : list Node)
    (edges : list Edge) (sel : option string) (cfg : HighlightingConfig)
    (e' : Edge) (n' : Node) :
  NoDup (edge_id <$> edges) →
  e' ∈ styledEdges (applyCompleteHighlighting nodes edges sel cfg) →
  edge_animated e' = Some true →
  n' ∈ styledNodes (applyCompleteHighlighting nodes edges sel cfg) →
  node_id n' = edge_source e' ∨ node_id n' = edge_target e' →
  style_entry (node_style n') "opacity" = Some (VNum (highlightedOpacity cfg)).
Proof.
  intros Hnd (e & -> & He)%list_elem_of_fmap Hanim (n & -> & Hn)%list_elem_of_fmap
    Hends.
  rewrite style_node_opacity. do 2 f_equal. apply node_opacity_highlighted.
  simpl in Hanim, Hends. injection Hanim as Hanim.
  apply bool_decide_eq_true_1 in Hanim.
  destruct (selection_cases sel) as [Hf | (s & -> & Hs)].
  - rewrite (calculateHighlighting_falsy _ _ Hf) in Hanim.
    by apply not_elem_of_empty in Hanim.
  - apply (elem_of_calculated_edges _ _ _ Hs) in Hanim as (e0 & He0 & Hi & Hid).
    rewrite <- (unique_edge_id edges e e0 Hnd He He0 Hid) in Hi.
    apply (elem_of_calculated_nodes _ _ _ Hs). right. by exists e.
Qed.

Lemma animated_edges_join_undimmed_nodes_witness :
  let out :=
    applyCompleteHighlighting mockNodes mockEdges (Some "node1")
      DEFAULT_HIGHLIGHTING_CONFIG in
  ∃ e' n',
    styledEdges out !! 2%nat = Some e' ∧ styledNodes out !! 3%nat = Some n'
    ∧ edge_id e' = "e3" ∧ node_id n' = "node4"
    ∧ style_entry (node_style n') "opacity" = Some (VNum 1%Q).
Proof.
  intros out.
  destruct (styledEdges out !! 2%nat) as [e' |] eqn:He'; [| discriminate He'].
  destruct (styledNodes out !! 3%nat) as [n' |] eqn:Hn'; [| discriminate Hn'].
  exists e', n'. split; [reflexivity |]. split; [reflexivity |].
  assert (NoDup (edge_id <$> mockEdges)) as Hnd
    by (apply (bool_decide_unpack _); vm_compute; exact I).
  pose proof (animated_edges_join_undimmed_nodes mockNodes mockEdges
                (Some "node1") DEFAULT_HIGHLIGHTING_CONFIG e' n' Hnd
                (list_elem_of_lookup_2 _ _ _ He')) as H.
  injection He' as <-. injection Hn' as <-.
  split; [reflexivity |]. split; [reflexivity |].
  apply H; [vm_compute; reflexivity | | right; reflexivity].
  unfold out, applyCompleteHighlighting, styledNodes.
  apply (list_elem_of_lookup_2 _ 3). reflexivity.
Defined.



(** * Properties of the cluster of [changes/flow-diagram.tsx] *)

Lemma cluster_visit_members rootId cluster e n :
  n ∈ Cluster.visit rootId cluster e
  ↔ n ∈ cluster
    ∨ (edge_source e = rootId ∧ n = edge_target e)
    ∨ (edge_source e ≠ rootId ∧ edge_target e = rootId ∧ n = edge_source e).
Proof.
  unfold Cluster.visit.
  destruct (decide (edge_source e = rootId)) as [Hs | Hs].
  - rewrite (bool_decide_eq_true_2 _ Hs), elem_of_union, elem_of_singleton.
    intuition congruence.
  - rewrite (bool_decide_eq_false_2 _ Hs).
    destruct (decide (edge_target e = rootId)) as [Ht | Ht].
    + rewrite (bool_decide_eq_true_2 _ Ht), elem_of_union, elem_of_singleton.
      intuition congruence.
    + rewrite (bool_decide_eq_false_2 _ Ht). intuition congruence.
Qed.

Lemma foldl_cluster_visit rootId edges cluster n :
  n ∈ foldl (Cluster.visit rootId) cluster edges
  ↔ n ∈ cluster
    ∨ ∃ e, e ∈ edges
           ∧ ((edge_source e = rootId ∧ n = edge_target e)
              ∨ (edge_source e ≠ rootId ∧ edge_target e = rootId
                 ∧ n = edge_source e)).
Proof.
  revert cluster. induction edges as [| e edges IH]; intros cluster; simpl.
  - split; [by left |]. intros [H | (e & He & _)]; [done |].
    by apply not_elem_of_nil in He.
  - rewrite IH, cluster_visit_members. split.
    + intros [[H | H] | (e' & He' & H)].
      * by left.
      * right. exists e. split; [left | done].
      * right. exists e'. split; [by right | done].
    + intros [H | (e' & [-> | He']%elem_of_cons & H)].
      * left. by left.
      * left. by right.
      * right. by exists e'.
Qed.

(** X9: [getCluster] returns the root together with the far end of every edge
    that starts or ends at the root, and nothing else. *)
Theorem getCluster_members (rootId : string) (edges : list Edge) (n : string) :
  n ∈ Cluster.getCluster rootId edges
  ↔ n = rootId
    ∨ ∃ e, e ∈ edges
           ∧ ((edge_source e = rootId ∧ n = edge_target e)
              ∨ (edge_target e = rootId ∧ n = edge_source e)).
Proof.
  unfold Cluster.getCluster. rewrite foldl_cluster_visit, elem_of_singleton.
  split.
  - intros [-> | (e & He & H)]; [by left |].
    right. exists e. split; [done |].
    destruct H as [H | (_ & H)]; [by left | by right].
  - intros [-> | (e & He & H)]; [by left |].
    destruct (decide (edge_source e = rootId)) as [Hs | Hs].
    + destruct H as [H | [Ht ->]]; [right; exists e; split; [done | by left] |].
      by left.
    + right. exists e. split; [done |].
      destruct H as [[? _] | [Ht ->]]; [done | by right].
Qed.

(** X10: For a non-empty identifier, [getCluster] and the node set of
    [calculateHighlighting] are the same set. *)
Theorem getCluster_is_highlightedNodes (rootId : string) (edges : list Edge) :
  rootId ≠ "" →
  Cluster.getCluster rootId edges
  = highlightedNodes (calculateHighlighting (Some rootId) edges).
Proof.
  intros Hroot. apply set_eq. intros n.
  rewrite getCluster_members, (elem_of_calculated_nodes _ _ _ Hroot).
  unfold incident. split.
  - intros [-> | (e & He & [[Hs ->] | [Ht ->]])]; [by left | |];
      right; exists e; auto.
  - intros [-> | (e & He & [Hs | Ht] & [-> | ->])]; [by left | | | |].
    + by left.
    + right. exists e. auto.
    + right. exists e. auto.
    + by left.
Qed.

Lemma getCluster_is_highlightedNodes_witness :
  Cluster.getCluster "node1" mockEdges = {["node1"; "node2"; "node4"]}.
Proof.
  rewrite (getCluster_is_highlightedNodes "node1" mockEdges); [| discriminate].
  vm_compute. reflexivity.
Defined.

(** The two differ at the empty string: [getCluster] still returns the
    root. *)
Example getCluster_empty_root :
  Cluster.getCluster "" [] = {[""]}
  ∧ highlightedNodes (calculateHighlighting (Some "") []) = ∅.
Proof. split; reflexivity. Qed.

(** X11: With the cluster of a root as active identifiers, every edge of the
    list that starts or ends at the root is animated and has stroke width
    3. *)
Theorem cluster_animates_incident_edges (rootId : string) (edges : list Edge)
    (i : nat) (e : Edge) :
  edges !! i = Some e →
  edge_source e = rootId ∨ edge_target e = rootId →
  ∃ e',
    Cluster.edgesWithAnimation edges (Cluster.getCluster rootId edges) !! i
    = Some e'
    ∧ edge_id e' = edge_id e
    ∧ edge_animated e' = Some true
    ∧ style_entry (edge_style e') "strokeWidth" = Some (VNum 3%Q).
Proof.
  intros Hi Hinc.
  exists (Cluster.with_animation (Cluster.getCluster rootId edges) e).
  unfold Cluster.edgesWithAnimation. rewrite list_lookup_fmap, Hi.
  split; [done |]. split; [done |].
  assert (e ∈ edges) as He by by apply (list_elem_of_lookup_2 _ i).
  assert (edge_source e ∈ Cluster.getCluster rootId edges) as Hs.
  { apply getCluster_members.
    destruct Hinc as [H | H]; [left; done | right; exists e; auto]. }
  assert (edge_target e ∈ Cluster.getCluster rootId edges) as Ht.
  { apply getCluster_members.
    destruct Hinc as [H | H]; [right; exists e; auto | left; done]. }
  unfold Cluster.with_animation; simpl.
  rewrite (bool_decide_eq_true_2 _ Hs), (bool_decide_eq_true_2 _ Ht); simpl.
  split; [done |]. apply lookup_insert_eq.
Qed.

Lemma cluster_animates_incident_edges_witness :
  ∃ e',
    Cluster.edgesWithAnimation mockEdges (Cluster.getCluster "node1" mockEdges)
      !! 2%nat = Some e'
    ∧ edge_id e' = "e3"
    ∧ edge_animated e' = Some true
    ∧ style_entry (edge_style e') "strokeWidth" = Some (VNum 3%Q).
Proof.
  exact (cluster_animates_incident_edges "node1" mockEdges 2
           (plain_edge "e3" "node1" "node4") eq_refl (or_introl eq_refl)).
Defined.

(** The cluster also animates an edge between two neighbours of the root,
    which [calculateHighlighting] does not highlight. *)
Example cluster_animates_edge_between_neighbours :
  let edges := [ plain_edge "a" "n1" "n2"; plain_edge "b" "n1" "n3";
                 plain_edge "c" "n2" "n3" ] in
  edge_animated
    <$> Cluster.edgesWithAnimation edges (Cluster.getCluster "n1" edges)
  = [Some true; Some true; Some true]
  ∧ edge_animated
      <$> applyEdgeHighlighting edges (calculateHighlighting (Some "n1") edges)
            (Some "n1") DEFAULT_HIGHLIGHTING_CONFIG
    = [Some true; Some true; Some false].
Proof. vm_compute. split; reflexivity. Qed.

(** X12: [nodesWithActiveClass] and [edgesWithAnimation] keep the length and the
    order of their input, the identifier, type and style of every node, and
    the identifier, source, target and remaining properties of every edge;
    an edge that is not animated keeps its style as it is, and an animated
    edge keeps every style entry but [strokeWidth]. *)
Theorem cluster_mappers_frame (nodes : list Node) (edges : list Edge)
    (activeIds : gset string) :
  let outNodes := Cluster.nodesWithActiveClass nodes activeIds in
  let outEdges := Cluster.edgesWithAnimation edges activeIds in
  (node_id <$> outNodes = node_id <$> nodes
   ∧ node_type <$> outNodes = node_type <$> nodes
   ∧ node_style <$> outNodes = node_style <$> nodes)
  ∧ (edge_id <$> outEdges = edge_id <$> edges
     ∧ edge_source <$> outEdges = edge_source <$> edges
     ∧ edge_target <$> outEdges = edge_target <$> edges
     ∧ edge_rest <$> outEdges = edge_rest <$> edges)
  ∧ Forall2 (λ e e',
       (edge_animated e' = Some false ∧ edge_style e' = edge_style e)
       ∨ (edge_animated e' = Some true
          ∧ delete "strokeWidth" (spread (edge_style e'))
            = delete "strokeWidth" (spread (edge_style e))))
     edges outEdges.
Proof.
  cbv zeta. unfold Cluster.nodesWithActiveClass, Cluster.edgesWithAnimation.
  split; [repeat split; by apply fmap_project_fmap |].
  split; [repeat split; by apply fmap_project_fmap |].
  apply Forall2_fmap_r, Forall_Forall2_diag, Forall_forall. intros e _.
  unfold Cluster.with_animation; simpl.
  destruct (_ && _); [right | by left].
  split; [done |]. simpl. by rewrite delete_insert_eq.
Qed.

(** X13: After a click on a node of type ["custom"] with a non-empty
    identifier, the nodes marked ['node--active'] are the nodes whose
    identifier [calculateHighlighting] puts in [highlightedNodes] for that
    selection. *)
Theorem active_class_is_highlightedNodes (nodes : list Node)
    (edges : list Edge) (node : Node) (activeIds : gset string) (i : nat)
    (m : Node) :
  node_type node = Some "custom" →
  node_id node ≠ "" →
  nodes !! i = Some m →
  ∃ m',
    Cluster.nodesWithActiveClass nodes
      (Cluster.onNodeClick edges node activeIds) !! i = Some m'
    ∧ node_id m' = node_id m
    ∧ (node_rest m' !! "className" = Some (VStr "node--active")
       ↔ node_id m
         ∈ highlightedNodes
             (calculateHighlighting (Some (node_id node)) edges))
    ∧ (node_rest m' !! "className" = None
       ↔ node_id m
         ∉ highlightedNodes
             (calculateHighlighting (Some (node_id node)) edges)).
Proof.
  intros Hty Hid Hi.
  unfold Cluster.onNodeClick. rewrite (bool_decide_eq_true_2 _ Hty).
  rewrite (getCluster_is_highlightedNodes _ _ Hid).
  set (hN := highlightedNodes _).
  exists (Cluster.with_active_class hN m).
  unfold Cluster.nodesWithActiveClass. rewrite list_lookup_fmap, Hi.
  split; [done |]. split; [done |].
  unfold Cluster.with_active_class; cbn [node_rest].
  destruct (decide (node_id m ∈ hN)) as [Hin | Hin].
  - rewrite (bool_decide_eq_true_2 _ Hin), lookup_insert_eq.
    split; split; done.
  - rewrite (bool_decide_eq_false_2 _ Hin), lookup_delete_eq.
    split; split; done.
Qed.

Lemma active_class_is_highlightedNodes_witness :
  ∃ m',
    Cluster.nodesWithActiveClass mockNodes
      (Cluster.onNodeClick mockEdges (plain_node "node1" "custom" 0 0) ∅)
      !! 3%nat = Some m'
    ∧ node_id m' = "node4"
    ∧ node_rest m' !! "className" = Some (VStr "node--active").
Proof.
  destruct (active_class_is_highlightedNodes mockNodes mockEdges
              (plain_node "node1" "custom" 0 0) ∅ 3
              (plain_node "node4" "custom" 0 100) eq_refl)
    as (m' & Hout & Hid & Hact & _); [discriminate | reflexivity |].
  exists m'. split; [exact Hout |]. split; [exact Hid |].
  apply Hact. apply (bool_decide_unpack _). vm_compute. exact I.
Defined.

(** * Properties of the selection of [components/flow-diagram.tsx] *)

Lemma selection_after_snoc evs ev :
  Selection.selection_after ((evs ++ [ev])%list)
  = Selection.handle (Selection.selection_after evs) ev.
Proof. apply foldl_snoc. Qed.

Lemma onNodeClick_Some node cur id :
  Selection.onNodeClick node cur = Some id
  ↔ node_type node ≠ Some "background" ∧ node_id node = id ∧ cur ≠ Some id.
Proof.
  unfold Selection.onNodeClick.
  destruct (decide (node_type node = Some "background")) as [Hbg | Hbg].
  - rewrite (bool_decide_eq_true_2 _ Hbg). split; [done | by intros (? & _)].
  - rewrite (bool_decide_eq_false_2 _ Hbg).
    destruct (decide (cur = Some (node_id node))) as [Hc | Hc].
    + rewrite (bool_decide_eq_true_2 _ Hc). split; [done |].
      intros (_ & <- & ?). done.
    + rewrite (bool_decide_eq_false_2 _ Hc). split.
      * intros [= <-]. done.
      * intros (_ & <- & _). done.
Qed.

(** X14: After any sequence of clicks, an identifier is selected exactly when
    the last event was a click on a node with that identifier, not of type
    ["background"], that was not the selected one just before. *)
Theorem selection_after_Some (evs : list Selection.event) (id : string) :
  Selection.selection_after evs = Some id
  ↔ ∃ evs' node,
      evs = (evs' ++ [Selection.NodeClick node])%list
      ∧ node_type node ≠ Some "background"
      ∧ node_id node = id
      ∧ Selection.selection_after evs' ≠ Some id.
Proof.
  split.
  - destruct evs as [| ev evs' _] using rev_ind; [done |].
    rewrite selection_after_snoc. destruct ev as [node |]; simpl; [| done].
    intros (Hbg & Hid & Hcur)%onNodeClick_Some. by exists evs', node.
  - intros (evs' & node & -> & Hbg & Hid & Hcur).
    rewrite selection_after_snoc. simpl. by apply onNodeClick_Some.
Qed.

(** X15: Clicking the same node (not of type ["background"]) over and over,
    from the initial state, selects it after an odd number of clicks and
    leaves nothing selected after an even number. *)
Theorem repeated_click_toggles (node : Node) (k : nat) :
  node_type node ≠ Some "background" →
  Selection.selection_after (replicate k (Selection.NodeClick node))
  = if Nat.odd k then Some (node_id node) else None.
Proof.
  intros Hbg. induction k as [| k IH]; [done |].
  rewrite replicate_S_end, selection_after_snoc, IH, Nat.odd_succ.
  rewrite <- Nat.negb_odd. cbn [Selection.handle].
  unfold Selection.onNodeClick. rewrite (bool_decide_eq_false_2 _ Hbg).
  destruct (Nat.odd k); cbn [negb].
  - by rewrite bool_decide_eq_true_2.
  - by rewrite bool_decide_eq_false_2.
Qed.

Lemma repeated_click_toggles_witness :
  Selection.selection_after
    (replicate 3 (Selection.NodeClick (plain_node "node1" "custom" 0 0)))
  = Some "node1".
Proof.
  apply (repeated_click_toggles (plain_node "node1" "custom" 0 0) 3).
  discriminate.
Defined.



(** ** [transformNodes] *)

Lemma transformNode_cases node :
  (val_truthy (node_rest node !! "parentId") = false
   ∧ Selection.transformNode node = node)
  ∨ (∃ parentId,
       node_rest node !! "parentId" = Some parentId
       ∧ val_truthy (Some parentId) = true
       ∧ Selection.transformNode node
         = {| node_id := node_id node; node_type := node_type node;
              node_style := node_style node;
              node_rest := <["parentNode" := parentId]>
                             (delete "parentId" (node_rest node)) |}).
Proof.
  unfold Selection.transformNode.
  destruct (node_rest node !! "parentId") as [parentId |] eqn:Hp; [| by left].
  destruct (val_truthy (Some parentId)) eqn:Ht; [| by left].
  right. by exists parentId.
Qed.

(** X17: [transformNodes] leaves no node with a truthy [parentId], and applying
    it to its own output changes nothing. *)
Theorem transformNodes_idempotent (nodes : list Node) :
  Forall (λ n, val_truthy (node_rest n !! "parentId") = false)
         (Selection.transformNodes nodes)
  ∧ Selection.transformNodes (Selection.transformNodes nodes)
    = Selection.transformNodes nodes.
Proof.
  assert (∀ n, val_truthy (node_rest (Selection.transformNode n) !! "parentId")
               = false) as Hno.
  { intros n. destruct (transformNode_cases n) as [[Hf ->] | (v & _ & _ & ->)];
      [done |]. simpl.
    rewrite lookup_insert_ne by done. by rewrite lookup_delete_eq. }
  unfold Selection.transformNodes. split.
  - apply Forall_fmap, Forall_forall. intros n _. apply Hno.
  - rewrite <- list_fmap_compose. apply list_fmap_ext. intros _ n _; simpl.
    destruct (transformNode_cases (Selection.transformNode n))
      as [[_ ->] | (v & Hv & Ht & _)]; [done |].
    specialize (Hno n). rewrite Hv in Hno. congruence.
Qed.

(** X18: [transformNodes] keeps the length and the order of the nodes, their
    identifier, type and style; a node with a truthy [parentId] comes out
    with that value under [parentNode], and every property other than
    [parentId] and [parentNode] is as it was. *)
Theorem transformNodes_renames_parent (nodes : list Node) (i : nat)
    (node : Node) :
  nodes !! i = Some node →
  ∃ node',
    Selection.transformNodes nodes !! i = Some node'
    ∧ node_id node' = node_id node
    ∧ node_type node' = node_type node
    ∧ node_style node' = node_style node
    ∧ (∀ k, k ≠ "parentId" → k ≠ "parentNode" →
            node_rest node' !! k = node_rest node !! k)
    ∧ (∀ parentId, node_rest node !! "parentId" = Some parentId →
                   val_truthy (Some parentId) = true →
                   node_rest node' !! "parentNode" = Some parentId).
Proof.
  intros Hi. exists (Selection.transformNode node).
  unfold Selection.transformNodes. rewrite list_lookup_fmap, Hi.
  split; [done |].
  destruct (transformNode_cases node) as [[Hf ->] | (v & Hv & Ht & ->)];
    cbn [node_id node_type node_style node_rest].
  - repeat split; try done. intros parentId Hp Ht. rewrite Hp in Hf. congruence.
  - repeat split; try done.
    + intros k Hk1 Hk2. rewrite lookup_insert_ne by done.
      by rewrite lookup_delete_ne.
    + intros parentId Hp _. rewrite Hv in Hp. injection Hp as <-.
      apply lookup_insert_eq.
Qed.

Lemma transformNodes_renames_parent_witness :
  ∃ node',
    Selection.transformNodes [childNode] !! 0%nat = Some node'
    ∧ node_rest node' !! "parentNode" = Some (VStr "bg1")
    ∧ node_rest node' !! "extent" = Some (VStr "parent")
    ∧ node_rest node' !! "parentId" = None.
Proof.
  destruct (transformNodes_renames_parent [childNode] 0 childNode eq_refl)
    as (node' & Hout & _ & _ & _ & Hk & Hp).
  exists node'. split; [exact Hout |]. split; [| split].
  - apply Hp; vm_compute; reflexivity.
  - rewrite (Hk "extent"); [vm_compute; reflexivity | discriminate | discriminate].
  - injection Hout as <-. vm_compute. reflexivity.
Defined.

(** X19: Renaming the parent and projecting the opacity can be done in either
    order. *)
Theorem transformNodes_commutes_with_highlighting (nodes : list Node)
    (hl : HighlightingResult) (sel : option string) (cfg : HighlightingConfig) :
  Selection.transformNodes (applyNodeHighlighting nodes hl sel cfg)
  = applyNodeHighlighting (Selection.transformNodes nodes) hl sel cfg.
Proof.
  unfold Selection.transformNodes, applyNodeHighlighting.
  rewrite <- !list_fmap_compose. apply list_fmap_ext. intros _ n _.
  unfold compose, Selection.transformNode. cbn [style_node node_rest].
  destruct (node_rest n !! "parentId") as [v |]; [| done].
  by destruct (val_truthy (Some v)).
Qed.

(** * Properties of the layout effect of [changes/flow-diagram.tsx] *)

Section layout_facts.

Variable fmul fadd fsub : number → number → number.
Variable is_positive : number → bool.
Variable px : number → string.
Variable availableWidth height : number.

Local Abbreviation step := (Layout.place_section fmul fadd px availableWidth height).

Lemma place_section_cases (l : list Node) x s p :
  (list_find (λ n, node_id n = s) l = None ∧ step (l, x) (s, p) = (l, x))
  ∨ (∃ j n,
       list_find (λ n, node_id n = s) l = Some (j, n)
       ∧ l !! j = Some n ∧ node_id n = s
       ∧ step (l, x) (s, p)
         = (<[j := Layout.place px n x (fmul availableWidth p) height]> l,
            fadd x (fadd (fmul availableWidth p) Layout.GAP_WIDTH))).
Proof.
  unfold Layout.place_section.
  destruct (list_find _ l) as [[j n] |] eqn:Hfind; [| by left].
  right. exists j, n. apply list_find_Some in Hfind as Hfind'.
  destruct Hfind' as (Hj & Hid & _). done.
Qed.

(** A turn of the loop keeps every node whose identifier is not the one of
    the section. *)
Lemma place_section_other (l : list Node) x s p j m :
  l !! j = Some m → node_id m ≠ s → (step (l, x) (s, p)).1 !! j = Some m.
Proof.
  intros Hj Hid.
  destruct (place_section_cases l x s p) as [[_ ->] | (j' & n & _ & Hj' & Hn & ->)];
    [done |]. cbn [fst].
  rewrite list_lookup_insert_ne; [done |]. intros ->. congruence.
Qed.

Lemma foldl_place_section_other sections (l : list Node) x j m :
  l !! j = Some m → node_id m ∉ sections.*1 →
  (foldl step (l, x) sections).1 !! j = Some m.
Proof.
  revert l x. induction sections as [| [s p] sections IH]; intros l x Hj Hid;
    [done |].
  cbn [foldl]. rewrite fmap_cons, not_elem_of_cons in Hid.
  destruct Hid as [Hs Hid]. cbn [fst] in Hs.
  pose proof (place_section_other l x s p j m Hj Hs) as Hstep.
  destruct (step (l, x) (s, p)) as [l1 x1]. by apply IH.
Qed.

(** A turn of the loop keeps the identifier and the type of every node. *)
Lemma place_section_ids (l : list Node) x sec :
  node_id <$> (step (l, x) sec).1 = node_id <$> l
  ∧ node_type <$> (step (l, x) sec).1 = node_type <$> l.
Proof.
  destruct sec as [s p].
  destruct (place_section_cases l x s p) as [[_ ->] | (j & n & _ & Hj & _ & ->)];
    [done |]. cbn [fst].
  rewrite !list_fmap_insert. cbn [Layout.place node_id node_type].
  split; apply list_insert_id; by rewrite list_lookup_fmap, Hj.
Qed.

Lemma foldl_place_section_ids sections (l : list Node) x :
  node_id <$> (foldl step (l, x) sections).1 = node_id <$> l
  ∧ node_type <$> (foldl step (l, x) sections).1 = node_type <$> l.
Proof.
  revert l x. induction sections as [| sec sections IH]; intros l x; [done |].
  cbn [foldl]. destruct (place_section_ids l x sec) as [Hid Hty].
  destruct (step (l, x) sec) as [l1 x1]. cbn [fst] in Hid, Hty.
  destruct (IH l1 x1) as [-> ->]. done.
Qed.

(** When the list names a section once, the first node with the
    identifier of that section ends as the object the loop builds for it. *)
Lemma foldl_place_section_found sections (l : list Node) x s j n :
  NoDup sections.*1 → s ∈ sections.*1 →
  list_find (λ n, node_id n = s) l = Some (j, n) →
  ∃ x' p,
    (foldl step (l, x) sections).1 !! j
    = Some (Layout.place px n x' (fmul availableWidth p) height)
    ∧ (s, p) ∈ sections
    ∧ (∀ p0 rest, sections = (s, p0) :: rest → x' = x).
Proof.
  revert l x. induction sections as [| [s' p'] sections IH];
    intros l x Hnd Hin Hfind.
  { by apply not_elem_of_nil in Hin. }
  rewrite fmap_cons in Hnd, Hin. apply NoDup_cons in Hnd as [Hs' Hnd].
  cbn [fst] in Hs'. cbn [foldl].
  destruct (decide (s' = s)) as [-> | Hne].
  - destruct (place_section_cases l x s p')
      as [[Hnone _] | (j0 & n0 & Hfind0 & Hj0 & Hn0 & Hstep)]; [congruence |].
    rewrite Hfind in Hfind0. injection Hfind0 as <- <-. rewrite Hstep.
    exists x; exists p'. split; [| split; [apply list_elem_of_here | by intros]].
    apply foldl_place_section_other;
      [| cbn [Layout.place node_id]; by rewrite Hn0].
    apply list_lookup_insert_eq. by apply (lookup_lt_Some _ _ n).
  - apply elem_of_cons in Hin as [Hin | Hin]; [cbn [fst] in Hin; congruence |].
    assert (list_find (λ n, node_id n = s) (step (l, x) (s', p')).1
            = Some (j, n)) as Hfind1.
    { apply list_find_Some in Hfind as (Hj & Hid & Hfirst).
      apply list_find_Some. split; [| split; [done |]].
      - apply place_section_other; [done | congruence].
      - intros j0 y Hy Hlt Hyid.
        destruct (place_section_ids l x (s', p')) as [Hids _].
        assert ((node_id <$> l) !! j0 = Some (node_id y)) as Hl0
          by by rewrite <- Hids, list_lookup_fmap, Hy.
        rewrite list_lookup_fmap in Hl0.
        destruct (l !! j0) as [y0 |] eqn:Hy0; [| done].
        injection Hl0 as Hl0. apply (Hfirst j0 y0 Hy0 Hlt). congruence. }
    destruct (step (l, x) (s', p')) as [l1 x1]. cbn [fst] in Hfind1.
    destruct (IH l1 x1 Hnd Hin Hfind1) as (x' & p & Hout & Hp & _).
    exists x'; exists p. split; [done |].
    split; [by apply list_elem_of_further |].
    intros p0 rest [= ? _ _]. done.
Qed.

End layout_facts.

Lemma layout_sections_ids :
  (zip Layout.SECTION_IDS Layout.SECTION_WIDTH_PROPORTIONS).*1
  = Layout.SECTION_IDS.
Proof. reflexivity. Qed.

(** X20: The effect keeps the length and the order of the nodes, the identifier
    and the type of each, and every node whose identifier is not one of the
    four section identifiers as it is. *)
Theorem layoutNodes_frame (fmul fadd fsub : number → number → number)
    (is_positive : number → bool) (px : number → string)
    (width height : number) (nds : list Node) :
  let out := Layout.layoutNodes fmul fadd fsub is_positive px width height nds in
  length out = length nds
  ∧ node_id <$> out = node_id <$> nds
  ∧ node_type <$> out = node_type <$> nds
  ∧ (∀ j m, nds !! j = Some m → node_id m ∉ Layout.SECTION_IDS →
            out !! j = Some m).
Proof.
  cbv zeta. unfold Layout.layoutNodes.
  destruct (is_positive width && is_positive height); [| done].
  unfold Layout.place_sections.
  set (avail := fsub width _).
  destruct (foldl_place_section_ids fmul fadd px avail height
              (zip Layout.SECTION_IDS Layout.SECTION_WIDTH_PROPORTIONS) nds 0%Q)
    as [Hid Hty].
  split; [| split; [done | split; [done |]]].
  - rewrite <- (length_fmap node_id nds), <- Hid. symmetry. apply length_fmap.
  - intros j m Hj Hm. apply foldl_place_section_other; [done |].
    by rewrite layout_sections_ids.
Qed.

Lemma layoutNodes_frame_witness :
  let nds := [ plain_node "node1" "custom" 10 20;
               plain_node "bg-validation" "background" 0 0 ] in
  Layout.layoutNodes Qmult Qplus Qminus (λ q, negb (Qle_bool q 0))
    (λ _, "px") 800%Q 600%Q nds !! 0%nat
  = Some (plain_node "node1" "custom" 10 20).
Proof.
  intros nds.
  apply (layoutNodes_frame Qmult Qplus Qminus (λ q, negb (Qle_bool q 0))
           (λ _, "px") 800%Q 600%Q nds); [reflexivity |].
  apply (bool_decide_unpack _). vm_compute. exact I.
Defined.

(** X21: When the viewport has a positive width and height, the first node with
    the identifier of a section is moved to [y = 0], gets the width computed
    for the section and the height of the viewport as [width] and [height]
    style entries, and keeps every other style entry and every property
    other than [position]; the first section starts at [x = 0]. *)
Theorem layoutNodes_places_sections (fmul fadd fsub : number → number → number)
    (is_positive : number → bool) (px : number → string)
    (width height : number) (nds : list Node) (sectionId : string) (j : nat)
    (n : Node) :
  is_positive width = true → is_positive height = true →
  sectionId ∈ Layout.SECTION_IDS →
  list_find (λ n, node_id n = sectionId) nds = Some (j, n) →
  ∃ n' x p,
    Layout.layoutNodes fmul fadd fsub is_positive px width height nds !! j
    = Some n'
    ∧ (sectionId, p) ∈ zip Layout.SECTION_IDS Layout.SECTION_WIDTH_PROPORTIONS
    ∧ node_id n' = sectionId
    ∧ node_rest n' !! "position" = Some (Layout.position x 0%Q)
    ∧ style_entry (node_style n') "width"
      = Some (VStr (px (fmul (fsub width (fmul Layout.GAP_WIDTH 3%Q)) p)))
    ∧ style_entry (node_style n') "height" = Some (VStr (px height))
    ∧ (∀ k, k ≠ "width" → k ≠ "height" →
            style_entry (node_style n') k = style_entry (node_style n) k)
    ∧ (∀ k, k ≠ "position" → node_rest n' !! k = node_rest n !! k)
    ∧ (sectionId = "bg-origination" → x = 0%Q).
Proof.
  intros Hw Hh Hin Hfind. unfold Layout.layoutNodes. rewrite Hw, Hh.
  cbn [andb]. unfold Layout.place_sections.
  change (fmul Layout.GAP_WIDTH (inject_Z _))
    with (fmul Layout.GAP_WIDTH 3%Q).
  set (avail := fsub width _).
  destruct (foldl_place_section_found fmul fadd px avail height
              (zip Layout.SECTION_IDS Layout.SECTION_WIDTH_PROPORTIONS)
              nds 0%Q sectionId j n)
    as (x & p & Hout & Hp & Hfirst); [| by rewrite layout_sections_ids | done |].
  { rewrite layout_sections_ids. apply (bool_decide_unpack _).
    vm_compute. exact I. }
  apply list_find_Some in Hfind as (_ & Hid & _).
  eexists _, x, p. split; [exact Hout |]. split; [exact Hp |].
  cbn [Layout.place node_id node_rest node_style style_entry mbind option_bind].
  split; [done |]. split; [apply lookup_insert_eq |].
  split; [rewrite lookup_insert_ne by done; apply lookup_insert_eq |].
  split; [apply lookup_insert_eq |].
  split; [| split].
  - intros k Hk1 Hk2. rewrite !lookup_insert_ne by done.
    by destruct (node_style n).
  - intros k Hk. by rewrite lookup_insert_ne.
  - intros ->. by eapply Hfirst.
Qed.

Lemma layoutNodes_places_sections_witness :
  let nds := [ plain_node "node1" "custom" 10 20;
               plain_node "bg-origination" "background" 5 5 ] in
  ∃ n' x,
    Layout.layoutNodes Qmult Qplus Qminus (λ q, negb (Qle_bool q 0))
      (λ _, "px") 800%Q 600%Q nds !! 1%nat = Some n'
    ∧ node_rest n' !! "position" = Some (Layout.position x 0%Q)
    ∧ x = 0%Q
    ∧ node_rest n' !! "data" = Some (VObj FNil).
Proof.
  intros nds.
  destruct (layoutNodes_places_sections Qmult Qplus Qminus
              (λ q, negb (Qle_bool q 0)) (λ _, "px") 800%Q 600%Q nds
              "bg-origination" 1 (plain_node "bg-origination" "background" 5 5))
    as (n' & x & p & Hout & _ & _ & Hpos & _ & _ & _ & Hrest & Hx);
    [reflexivity | reflexivity | apply list_elem_of_here
    | vm_compute; reflexivity |].
  exists n', x. split; [exact Hout |]. split; [exact Hpos |].
  split; [exact (Hx eq_refl) |].
  rewrite (Hrest "data"); [vm_compute; reflexivity | discriminate].
Defined.

(** * What the functions return is new *)

(** ** Rules for [post] *)











(** ** The objects the projectors build *)










